(** * MOOS: multiple Ocean Optics spectrometers (moos.cpp)

    A shallow embedding of the acquisition pipeline of
    [src/coloredlids/instruments/moos.cpp]: the boxcar smoother
    [average_vector], the string functions [split_string] and
    [join_strings], the command-line [Parser], the SeaBreeze error check
    [check_for_error], the single-spectrometer class [Device] and the
    parts of [Meter] that read the options, find and set up the devices,
    parse integration times, pace the acquisition loop and close the
    devices.

    Conventions of the embedding.
    - A C++ [double] is a primitive binary64 [float]; its operations are
      the IEEE 754 ones of [PrimFloat].
    - An [unsigned] is a [Z] in [[0, 2^32)]; every operation the source
      performs on [unsigned] operands is followed by [u32].
    - A [std::vector<double>] is a [list float]; [X[i]] is a lookup
      ([!!]) and an assignment to [X[i]] an insert ([<[i:=v]>]).  The
      source uses the unchecked [operator[]]: an access outside the
      vector is undefined behaviour, which the embedding reports as
      [None] (pure code) or as the outcome [Undefined] (code that talks
      to the driver).
    - The SeaBreeze driver, the console and [exit] are effects: code
      that uses them is a function from a [World] to an [outcome] and a
      new [World].

    The file has three parts: the program, the vocabulary in which its
    properties are stated (with the concrete drivers and devices the
    examples run on), and the properties with their lemmas: C1 to C10
    first, then X1 to X30 on the code around them. *)

From Stdlib Require Import ZArith Floats Uint63 Lia Ascii String.
From stdpp Require Import base option list strings.

Local Open Scope Z_scope.

(** * The program *)

(** ** Machine numbers *)

(** Wrap-around of the 32-bit [unsigned] type. *)
Definition u32 (z : Z) : Z := z mod 2 ^ 32.

(** Conversion of an [unsigned] to [double]; exact on the whole range. *)
Definition of_unsigned (z : Z) : float := PrimFloat.of_uint63 (Uint63.of_Z z).

(** The integer part of a finite [double] (truncation towards zero), as a
    conversion to an integer type computes it before the range check. *)
Definition trunc (x : float) : option Z :=
  match Prim2SF x with
  | S754_zero _ => Some 0
  | S754_finite s m e =>
      let v := if 0 <=? e then Z.pos m * 2 ^ e else Z.shiftr (Z.pos m) (- e) in
      Some (if s then - v else v)
  | S754_infinity _ | S754_nan => None
  end.

(** [unsigned(x)] and [static_cast<unsigned long>(x)]: defined only when
    the truncated value is representable in the target type. *)
Definition to_unsigned_bits (bits : Z) (x : float) : option Z :=
  t ← trunc x;
  if bool_decide (0 <= t < 2 ^ bits) then Some t else None.

Definition to_unsigned : float → option Z := to_unsigned_bits 32.
Definition to_unsigned_long : float → option Z := to_unsigned_bits 64.

(** ** Vectors of doubles *)

Definition vget (X : list float) (i : Z) : option float :=
  if bool_decide (0 <= i) then X !! Z.to_nat i else None.

Definition vset (X : list float) (i : Z) (v : float) : option (list float) :=
  if bool_decide (0 <= i < Z.of_nat (length X))
  then Some (<[Z.to_nat i := v]> X) else None.

(** [for (i = lo; i < hi; i++) body]: the body runs for
    [i = lo, lo+1, ..., hi-1] and the loop stops at the first undefined
    access. *)
Fixpoint for_loop {St : Type} (k : nat) (i : Z)
    (body : Z → St → option St) (s : St) : option St :=
  match k with
  | O => Some s
  | S k' => s' ← body i s; for_loop k' (i + 1) body s'
  end.

Definition for_range {St : Type} (lo hi : Z)
    (body : Z → St → option St) (s : St) : option St :=
  for_loop (Z.to_nat (hi - lo)) lo body s.

(** ** average_vector (moos.cpp, lines 92-126) *)

Definition empty {A : Type} (X : list A) : bool :=
  match X with [] => true | _ => false end.

(** The body of the centre loop, lines 102-105: [average] starts as
    [X[i]], collects [X[i+j] + X[i-j]] for [j = 1 .. boxcar] and is
    divided by [1 + 2 * boxcar].  The samples are read from [X] itself,
    the vector that the loop is writing to.  ([j <= boxcar] never ends
    for [boxcar = UINT_MAX]; the centre loop is not entered then.) *)
Definition window_value (boxcar i : Z) (X : list float) : option float :=
  average ← vget X i;
  average ← for_range 1 (boxcar + 1)
    (λ j average,
       a ← vget X (u32 (i + j));
       b ← vget X (u32 (i - j));
       Some (average + (a + b))%float) average;
  Some (average / of_unsigned (u32 (1 + 2 * boxcar)))%float.

(** Line 106: [X[i] = average]. *)
Definition center_step (boxcar i : Z) (X : list float) : option (list float) :=
  average ← window_value boxcar i X;
  vset X i average.

(** [average += X[i]] over a range, starting from [0.0]. *)
Definition sum_range (lo hi : Z) (X : list float) : option float :=
  for_range lo hi (λ i average, x ← vget X i; Some (average + x)%float) 0%float.

(** [X[i] = average] over a range. *)
Definition fill_range (lo hi : Z) (average : float) (X : list float)
    : option (list float) :=
  for_range lo hi (λ i X, vset X i average) X.

Definition center_pass (boxcar : Z) (X : list float) : option (list float) :=
  let n := u32 (Z.of_nat (length X)) in
  for_range boxcar (u32 (n - boxcar)) (center_step boxcar) X.

Definition left_end (boxcar : Z) (X : list float) : option (list float) :=
  average ← sum_range 0 boxcar X;
  fill_range 0 boxcar (average / of_unsigned boxcar)%float X.

Definition right_end (boxcar : Z) (X : list float) : option (list float) :=
  let n := u32 (Z.of_nat (length X)) in
  average ← sum_range (u32 (n - boxcar)) n X;
  fill_range (u32 (n - boxcar)) n (average / of_unsigned boxcar)%float X.

(** The vector is passed by reference: the result pairs the returned
    [bool] with the final contents of [X]. *)
Definition average_vector (X : list float) (boxcar : Z)
    : option (bool * list float) :=
  if empty X || (boxcar <=? 0) then Some (false, X)
  else
    X ← center_pass boxcar X;
    X ← left_end boxcar X;
    X ← right_end boxcar X;
    Some (true, X).

(** ** split_string (moos.cpp, lines 146-165) *)

(** [s.find(delimiter, i)] stored in an [int]: the position of the first
    [delimiter] at or after [i], or [-1] for [npos]. *)
Definition find (s : string) (delimiter : ascii) (i : Z) : Z :=
  match String.index (Z.to_nat i) (String delimiter EmptyString) s with
  | Some j => Z.of_nat j
  | None => -1
  end.

(** [s.substr(i, len)] and [s.substr(i)], for [i] within the string. *)
Definition substr (s : string) (i len : Z) : string :=
  String.substring (Z.to_nat i) (Z.to_nat len) s.
Definition substr_from (s : string) (i : Z) : string :=
  String.substring (Z.to_nat i) (String.length s - Z.to_nat i) s.

(** The [while] loop.  Every round moves [i] to the right of a position
    that is at least [i], so [String.length s - i + 1] rounds always
    suffice ([split_loop_fuel] and [split_string_fuel] below); [i] and
    [j] are [int]s and stay far below [INT_MAX] for a command-line
    argument. *)
Fixpoint split_loop (fuel : nat) (s : string) (delimiter : ascii) (i : Z)
    (array : list string) : list string :=
  match fuel with
  | O => array
  | S fuel' =>
      if bool_decide (i < Z.of_nat (String.length s)) then
        let j := find s delimiter i in
        let sub := if bool_decide (j = -1) then substr_from s i
                   else substr s i (j - i) in
        let array := array ++ [sub] in
        if bool_decide (j = -1) then array
        else split_loop fuel' s delimiter (j + 1) array
      else array
  end.

Definition split_string (s : string) (delimiter : ascii) : list string :=
  split_loop (S (String.length s)) s delimiter 0 [].

(** ** join_strings (moos.cpp, lines 171-178) *)

Definition join_strings (array : list string) (delimiter : string) : string :=
  foldl (λ result el, result +:+ (el +:+ delimiter))%string EmptyString array.

(** ** class Parser (moos.cpp, lines 197-323)

    The parameter [option] of the source is [opt] here. *)

Record Parser : Type := mkParser {
  argv : list string
}.

(** [read_arguments] (lines 232-238): the arguments after the program
    name are appended to [this->argv]; reading [argv[i]] past the end of
    the argument vector is undefined. *)
Definition read_arguments (p : Parser) (argc : Z) (args : list string)
    : option (bool * Parser) :=
  stored ← for_range 1 argc
    (λ i stored, arg ← args !! Z.to_nat i; Some (stored ++ [arg])) (argv p);
  Some (bool_decide (1 < Z.of_nat (length stored)), mkParser stored).

(** [Parser(argc, argv)] (lines 211-214). *)
Definition new_Parser (argc : Z) (args : list string) : option Parser :=
  '(_, p) ← read_arguments (mkParser []) argc args;
  Some p.

(** [program_name] (lines 246-249): [argv[0]] of the stored vector. *)
Definition program_name (p : Parser) : option string := argv p !! 0%nat.

(** One of the two search loops of [get_index]: the index of the first
    element equal to [opt], counted from [i]. *)
Fixpoint search (opt : string) (l : list string) (i : Z) : option Z :=
  match l with
  | [] => None
  | arg :: l' => if String.eqb arg opt then Some i else search opt l' (i + 1)
  end.

(** [get_index] (lines 264-274). *)
Definition get_index (p : Parser) (opt alternative_option : string) : Z :=
  match search opt (argv p) 0 with
  | Some i => i
  | None =>
      match search alternative_option (argv p) 0 with
      | Some i => i
      | None => -1
      end
  end.

(** [is_option] (lines 289-292). *)
Definition is_option (p : Parser) (opt alternative_option : string) : bool :=
  bool_decide (get_index p opt alternative_option ≠ -1).

(** [s[pos]] of a [std::string], for [pos <= s.size()]: the character at
    [pos], or the terminating NUL at [pos = s.size()]. *)
Definition char_at (s : string) (pos : nat) : ascii :=
  default "000"%char (String.get pos s).

(** [get_value] (lines 308-322).  [argv[i+1]] exists because [i+1] is not
    the size; [next_token[1]] is read only after [next_token[0]] was a
    dash, so it is at most the terminating NUL. *)
Definition get_value (p : Parser) (opt alternative_option : string)
    : option string :=
  if negb (is_option p opt alternative_option) then Some EmptyString
  else
    let i := get_index p opt alternative_option in
    if bool_decide (i + 1 = Z.of_nat (length (argv p))) then Some EmptyString
    else
      next_token ← argv p !! Z.to_nat (i + 1);
      if Ascii.eqb (char_at next_token 0) "-" && Ascii.eqb (char_at next_token 1) "-"
      then Some EmptyString
      else Some next_token.

(** ** Effects: driver, console, process exit *)

(** What a call of the program leaves behind, in program order.  Console
    output that only decorates the run (banners, lists of indices) is
    left out; the error report of [check_for_error] and the correction
    note of [repair_false_pixels] are kept. *)
Inductive event : Type :=
  | ErrorReport (error : Z) (text : string)
  | CorrectionNote (serial : string)
  | GetModel (index : Z)
  | GetSerialNumber (index : Z)
  | GetFormattedSpectrum (index : Z)
  | CloseSpectrometer (index : Z).

Record World : Type := mkWorld {
  trace : list event;       (* oldest event first *)
  scans_read : nat          (* number of spectra the driver has delivered *)
}.

(** How a call ends: it returns, the process exits ([exit(status)]), an
    [assert] fails, or the behaviour is undefined. *)
Inductive outcome (A : Type) : Type :=
  | Done (a : A)
  | Exited (status : Z)
  | AssertionFailed
  | Undefined.
Arguments Done {A} a.
Arguments Exited {A} status.
Arguments AssertionFailed {A}.
Arguments Undefined {A}.

Definition M (A : Type) : Type := World → outcome A * World.

#[global] Instance M_ret : MRet M := λ A a w, (Done a, w).
#[global] Instance M_bind : MBind M := λ A B f m w,
  match m w with
  | (Done a, w') => f a w'
  | (Exited status, w') => (Exited status, w')
  | (AssertionFailed, w') => (AssertionFailed, w')
  | (Undefined, w') => (Undefined, w')
  end.

Definition emit (e : event) : M unit :=
  λ w, (Done (), mkWorld (trace w ++ [e]) (scans_read w)).
Definition exit {A : Type} (status : Z) : M A := λ w, (Exited status, w).
Definition assert (b : bool) : M unit :=
  λ w, (if b then Done () else AssertionFailed, w).
Definition lift {A : Type} (o : option A) : M A :=
  λ w, (match o with Some a => Done a | None => Undefined end, w).
Definition next_scan : M nat :=
  λ w, (Done (scans_read w), mkWorld (trace w) (S (scans_read w))).

(** A range-based [for] over a vector and a counting [for], both with a
    body that has effects. *)
Fixpoint for_each {A St : Type} (l : list A) (body : A → St → M St) (s : St) : M St :=
  match l with
  | [] => mret s
  | a :: l' => s' ← body a s; for_each l' body s'
  end.

Fixpoint repeat_M {St : Type} (k : nat) (body : St → M St) (s : St) : M St :=
  match k with
  | O => mret s
  | S k' => s' ← body s; repeat_M k' body s'
  end.

(** ** class Device (moos.cpp, lines 348-576): data members *)

Record Device : Type := mkDevice {
  index : Z;
  pixels : Z;
  error : Z;
  wavelengths : list float;
  formatted_spectrum : list float;
  background_spectrum : list float;
  reference_spectrum : list float;
  buffer : list float;
  transmission : list float
}.

(** [Device(index)]: every other member keeps its default initialiser. *)
Definition new_Device (index : Z) : Device :=
  mkDevice index 0 0 [] [] [] [] [] [].

Definition set_error (e : Z) (d : Device) : Device :=
  mkDevice (index d) (pixels d) e (wavelengths d) (formatted_spectrum d)
    (background_spectrum d) (reference_spectrum d) (buffer d) (transmission d).
Definition set_formatted_spectrum (X : list float) (d : Device) : Device :=
  mkDevice (index d) (pixels d) (error d) (wavelengths d) X
    (background_spectrum d) (reference_spectrum d) (buffer d) (transmission d).
Definition set_buffer (X : list float) (d : Device) : Device :=
  mkDevice (index d) (pixels d) (error d) (wavelengths d) (formatted_spectrum d)
    (background_spectrum d) (reference_spectrum d) X (transmission d).
Definition set_transmission (X : list float) (d : Device) : Device :=
  mkDevice (index d) (pixels d) (error d) (wavelengths d) (formatted_spectrum d)
    (background_spectrum d) (reference_spectrum d) (buffer d) X.

(** ** The SeaBreeze driver *)

(** The SeaBreeze C API, as far as the modelled code calls it.  Every
    entry returns the error code the call stores through its [int *error]
    argument, next to its result.  Identity and close answers depend on
    the device index; the answer to a spectrum request also depends on
    how many spectra were read before. *)
Class SeaBreeze : Type := {
  seabreeze_get_error_string : Z → string;
  seabreeze_get_model : Z → Z * string;
  seabreeze_get_serial_number : Z → Z * string;
  seabreeze_get_formatted_spectrum : Z → nat → Z → Z * list float;
  seabreeze_close_spectrometer : Z → Z
}.

Section Driver.
Context `{SeaBreeze}.

(** ** check_for_error (moos.cpp, lines 329-342) *)
Definition check_for_error (error : Z) : M bool :=
  if bool_decide (error ≠ 0) then
    emit (ErrorReport error (seabreeze_get_error_string error));;
    exit 1
  else mret true.

(** ** class Device: member functions *)

(** [model_name] and [serial_number] (lines 549-575).  The local [error]
    starts as 1 and is overwritten by the driver call. *)
Definition model_name (d : Device) : M string :=
  emit (GetModel (index d));;
  let '(error, buffer) := seabreeze_get_model (index d) in
  check_for_error error;;
  if bool_decide (error ≠ 0) then mret "unknown"%string else mret buffer.

Definition serial_number (d : Device) : M string :=
  emit (GetSerialNumber (index d));;
  let '(error, buffer) := seabreeze_get_serial_number (index d) in
  check_for_error error;;
  if bool_decide (error ≠ 0) then mret "unknown"%string else mret buffer.

(** [repair_false_pixels] (lines 423-441).  The tolerance test of the
    source, on one pixel [x] against the reference value [corr]. *)
Definition out_of_tolerance (x corr : float) : bool :=
  ((x <? 0.5 * corr) || (2 * corr <? x))%float.

Definition repair_false_pixels (d : Device) (buffer : list float)
    (silent : bool) : M (bool * list float) :=
  sn ← serial_number d;
  if String.eqb sn "FLMS03141" then
    (if silent then mret () else sn ← serial_number d; emit (CorrectionNote sn));;
    let i_correct := 2 in
    corr ← lift (vget buffer i_correct);
    buffer ← lift (for_range 0 i_correct
      (λ i buffer,
         x ← vget buffer i;
         if out_of_tolerance x corr then vset buffer i corr else Some buffer)
      buffer);
    mret (true, buffer)
  else mret (true, buffer).

(** What [seabreeze_get_formatted_spectrum(index, &error, &buffer[0],
    pixels)] does to the scratch buffer: the delivered values replace a
    prefix of it, never more than the buffer holds. *)
Definition write_prefix (vals buffer : list float) : list float :=
  take (length buffer) vals ++ drop (length vals) buffer.

(** [read_spectrum] (lines 444-481). *)
Definition accumulate (n : Z) (buffer acc : list float) : option (list float) :=
  for_range 0 n
    (λ pixel acc, a ← vget acc pixel; b ← vget buffer pixel;
                  vset acc pixel (a + b)%float) acc.

Definition scale (n : Z) (factor : float) (acc : list float) : option (list float) :=
  for_range 0 n
    (λ pixel acc, a ← vget acc pixel; vset acc pixel (a * factor)%float) acc.

Definition one_scan (silent : bool) (d : Device) : M Device :=
  scan ← next_scan;
  emit (GetFormattedSpectrum (index d));;
  let '(error, vals) :=
    seabreeze_get_formatted_spectrum (index d) scan (pixels d) in
  let d := set_buffer (write_prefix vals (buffer d)) (set_error error d) in
  check_for_error error;;
  '(_, repaired) ← repair_false_pixels d (buffer d) silent;
  let d := set_buffer repaired d in
  acc ← lift (accumulate (pixels d) (buffer d) (formatted_spectrum d));
  mret (set_formatted_spectrum acc d).

(** Lines 448-456: the scratch buffer and the spectrum are brought to
    [pixels] elements; a spectrum that already has them is set to zero. *)
Definition size_buffers (d : Device) : M Device :=
  let d :=
    if bool_decide (Z.of_nat (length (buffer d)) ≠ pixels d)
    then set_buffer (resize (Z.to_nat (pixels d)) 0%float (buffer d)) d
    else d in
  if bool_decide (Z.of_nat (length (formatted_spectrum d)) ≠ pixels d)
  then mret (set_formatted_spectrum
               (resize (Z.to_nat (pixels d)) 0%float (formatted_spectrum d)) d)
  else
    X ← lift (fill_range 0 (pixels d) 0%float (formatted_spectrum d));
    mret (set_formatted_spectrum X d).

(** Lines 447-476: the buffers are sized, the scans are summed and the
    sum is divided by the number of scans. *)
Definition averaged_scans (d : Device) (scans_to_average : Z) (silent : bool)
    : M Device :=
  d ← size_buffers d;
  d ← repeat_M (Z.to_nat scans_to_average) (one_scan silent) d;
  let reverse_denominator := (1 / of_unsigned scans_to_average)%float in
  X ← lift (scale (pixels d) reverse_denominator (formatted_spectrum d));
  mret (set_formatted_spectrum X d).

(** Lines 478-480: the smoother runs on [formatted_spectrum]; what it
    returns is dropped. *)
Definition read_spectrum (d : Device) (scans_to_average boxcar_width : Z)
    (silent : bool) : M (bool * Device) :=
  d ← averaged_scans d scans_to_average silent;
  '(_, X) ← lift (average_vector (formatted_spectrum d) boxcar_width);
  mret (true, set_formatted_spectrum X d).

(** [calc_transmission] (lines 490-508); the two placeholder arguments
    are not used by the source. *)
Definition calc_transmission (d : Device) : M (bool * Device) :=
  assert (bool_decide (Z.of_nat (length (formatted_spectrum d)) = pixels d));;
  assert (bool_decide (Z.of_nat (length (background_spectrum d)) = pixels d));;
  assert (bool_decide (Z.of_nat (length (reference_spectrum d)) = pixels d));;
  let raw := formatted_spectrum d in
  result ← lift (for_range 0 (Z.of_nat (length raw))
    (λ pixel result,
       r ← vget raw pixel;
       b ← vget (background_spectrum d) pixel;
       ref ← vget (reference_spectrum d) pixel;
       let tau := ((r - b) / (ref - b))%float in
       Some (result ++ [tau])) []);
  mret (true, set_transmission result d).

End Driver.

(** ** class Meter (moos.cpp, lines 583-1002) *)

(** The data members the modelled member functions use.  [Meter::error]
    is [meter_error] here, next to [Device::error]. *)
Record Meter : Type := mkMeter {
  iterations : Z;
  integration_time_str : string;
  integration_times_micro_seconds : list Z;
  scans_to_average : Z;
  post_scans_sleep : float;
  boxcar_width : Z;
  trigger_mode : Z;
  calibrate : bool;
  silent : bool;
  meter_error : Z;
  devices : list Device
}.

Definition set_integration_times_micro_seconds (l : list Z) (m : Meter) : Meter :=
  mkMeter (iterations m) (integration_time_str m) l (scans_to_average m)
    (post_scans_sleep m) (boxcar_width m) (trigger_mode m) (calibrate m)
    (silent m) (meter_error m) (devices m).
Definition set_meter_error (e : Z) (m : Meter) : Meter :=
  mkMeter (iterations m) (integration_time_str m)
    (integration_times_micro_seconds m) (scans_to_average m)
    (post_scans_sleep m) (boxcar_width m) (trigger_mode m) (calibrate m)
    (silent m) e (devices m).

Section IntegrationTimes.
(** The C library's [atof]. *)
Variable atof : string → float.

(** [Meter::pre], lines 786-803: from [integration_time_str] to
    [integration_times_micro_seconds].  [devices.size()] is compared and
    counted in [unsigned] arithmetic. *)
Definition pad_str_arr (str_arr : list string) (size : Z) : option (list string) :=
  if bool_decide (Z.of_nat (length str_arr) < size) then
    let n := u32 (Z.of_nat (length str_arr)) in
    for_range n size
      (λ i str_arr,
         last ← str_arr !! Z.to_nat (u32 (n - 1));
         Some (str_arr ++ [last])) str_arr
  else Some str_arr.

Definition micro_seconds (str_arr : list string) (size : Z) : option (list Z) :=
  for_range 0 size
    (λ i times,
       str ← str_arr !! Z.to_nat i;
       let t_s := atof str in
       t_us ← to_unsigned (t_s * 1e6)%float;
       Some (times ++ [t_us])) [].

Definition pre_integration_times (m : Meter) : option Meter :=
  let size := Z.of_nat (length (devices m)) in
  let str_arr := split_string (integration_time_str m) ":" in
  str_arr ← pad_str_arr str_arr size;
  times ← micro_seconds str_arr size;
  Some (set_integration_times_micro_seconds times m).

End IntegrationTimes.

(** [Meter::task], lines 943-952: the sleep after the devices were read.
    [sleep_request] is the [if] chain: the [std::chrono] unit it selects
    and the [double] it hands to [static_cast<unsigned long>]. *)
Inductive timer_unit : Type := minutes | seconds | milliseconds.

Definition sleep_request (post_scans_sleep : float) : timer_unit * float :=
  if (600 <? post_scans_sleep)%float then
    (minutes, (post_scans_sleep / 60)%float)
  else if (10 <? post_scans_sleep)%float then
    (seconds, (post_scans_sleep * 1)%float)
  else
    (milliseconds, (post_scans_sleep * 1e3)%float).

Definition sleep_for (post_scans_sleep : float) : option (timer_unit * Z) :=
  let '(unit, count) := sleep_request post_scans_sleep in
  ticks ← to_unsigned_long count;
  Some (unit, ticks).

Section Teardown.
Context `{SeaBreeze}.

(** [Meter::post], lines 963-990, built without HAVE_PLOT_SPECTROGRAPHS
    as the source is ([#undef] at line 27). *)
Definition close_device (device : Device) (m : Meter) : M Meter :=
  emit (CloseSpectrometer (index device));;
  let m := set_meter_error (seabreeze_close_spectrometer (index device)) m in
  check_for_error (meter_error m);;
  mret m.

Definition post (m : Meter) : M (bool * Meter) :=
  m ← for_each (devices m) close_device m;
  mret (true, m).

End Teardown.

(** ** Meter::initialize (moos.cpp, lines 653-741) *)

(** The two data members of [Meter] that name the output files. *)
Record Names : Type := mkNames {
  path : string;
  identifier : string
}.

(** [LONG_MAX] and the wrap-around of [unsigned long], both of 64 bits. *)
Definition LONG_MAX : Z := 2 ^ 63 - 1.
Definition u64 (z : Z) : Z := z mod 2 ^ 64.

(** [s.back()] of a string that is not empty. *)
Definition back (s : string) : ascii := char_at s (String.length s - 1).

Section Options.
(** The C library's [atoi], [atol] and [atof]. *)
Variable atoi atol : string → Z.
Variable atof : string → float.

(** The options are read in the order of the source; what is printed is
    left out.  An [int] stored in the [unsigned long iterations] and a
    [long] stored in the [unsigned scans_to_average] wrap around. *)
Definition initialize (m : Meter) (names : Names) (argc : Z)
    (args : list string) : option (bool * Meter * Names) :=
  parser ← new_Parser argc args;
  s ← get_value parser "--id" "--identifier";
  let identifier := if negb (String.eqb s "") then s else "default"%string in
  s ← get_value parser "--it" "--iterations";
  let iterations := if negb (String.eqb s "") then u64 (atoi s) else 0 in
  let iterations := if bool_decide (iterations < 1) then LONG_MAX
                    else iterations in
  s ← get_value parser "--int" "--integration_time";
  let integration_time_str :=
    if negb (String.eqb s "") then s else "1e-3"%string in
  s ← get_value parser "--avg" "--scans_to_average";
  let scans_to_average := if negb (String.eqb s "") then u32 (atol s) else 1 in
  s ← get_value parser "--post" "--post_scans_sleep";
  let post_scans_sleep :=
    if negb (String.eqb s "") then atof s else 1%float in
  s ← get_value parser "--path" "";
  let path :=
    if negb (String.eqb s "") then
      if negb (Ascii.eqb (back s) "/") && negb (Ascii.eqb (back s) "\")
      then (s +:+ "/")%string else s
    else "./"%string in
  s ← get_value parser "--trig" "--trigger_mode";
  let trigger_mode := if negb (String.eqb s "") then atoi s else 0 in
  s ← get_value parser "--box" "--boxcar_width";
  let boxcar_width := if negb (String.eqb s "") then atoi s else 1 in
  let calibrate := is_option parser "--cal" "--calibrate" in
  let silent := is_option parser "--s" "--silent" in
  Some (true,
        mkMeter iterations integration_time_str
          (integration_times_micro_seconds m) scans_to_average
          post_scans_sleep boxcar_width trigger_mode calibrate silent
          (meter_error m) (devices m),
        mkNames path identifier).

(** [Meter(argc, argv)] (lines 590-632): the member initialisers, the
    usage note and [exit(-1)] of a call without arguments, then
    [initialize]. *)
Definition Meter_members : Meter :=
  mkMeter LONG_MAX "0.0" [] 1 0 1 0 false false 0 [].
Definition Names_members : Names := mkNames "./" "scan".

Definition new_Meter (argc : Z) (args : list string) : M (Meter * Names) :=
  if bool_decide (argc = 1) then exit (-1)
  else
    '(_, m, names) ← lift (initialize Meter_members Names_members argc args);
    mret (m, names).

End Options.

(** ** Setting the devices up: Device::read_pixels, Device::read_wavelengths
    and the loops of Meter::pre around them *)

Definition UINT_MAX : Z := 2 ^ 32 - 1.
Definition MAX_DEVICES : Z := 16.

Definition set_pixels (n : Z) (d : Device) : Device :=
  mkDevice (index d) n (error d) (wavelengths d) (formatted_spectrum d)
    (background_spectrum d) (reference_spectrum d) (buffer d) (transmission d).
Definition set_wavelengths (X : list float) (d : Device) : Device :=
  mkDevice (index d) (pixels d) (error d) X (formatted_spectrum d)
    (background_spectrum d) (reference_spectrum d) (buffer d) (transmission d).
Definition set_devices (ds : list Device) (m : Meter) : Meter :=
  mkMeter (iterations m) (integration_time_str m)
    (integration_times_micro_seconds m) (scans_to_average m)
    (post_scans_sleep m) (boxcar_width m) (trigger_mode m) (calibrate m)
    (silent m) (meter_error m) ds.

(** The entries of the SeaBreeze C API that only the set-up calls; as in
    [SeaBreeze], the error code comes first.  These calls leave no event
    in the trace. *)
Class SeaBreezeSetup : Type := {
  seabreeze_open_spectrometer : Z → Z;
  seabreeze_get_formatted_spectrum_length : Z → Z * Z;
  seabreeze_get_wavelengths : Z → Z → Z * list float;
  seabreeze_set_integration_time_microsec : Z → Z → Z;
  seabreeze_set_trigger_mode : Z → Z → Z
}.

Section Setup.
Context `{SeaBreeze} `{SeaBreezeSetup}.

(** [read_pixels] (lines 373-397).  The [int] the driver returns is
    stored in the [unsigned pixels]. *)
Definition read_pixels (d : Device) (silent : bool) : M (bool * Device) :=
  assert (bool_decide (index d ≠ UINT_MAX));;
  check_for_error (error d);;
  let '(error, reported) := seabreeze_get_formatted_spectrum_length (index d) in
  let d := set_pixels (u32 reported) (set_error error d) in
  check_for_error error;;
  sn ← serial_number d;
  if String.eqb sn "FLMN01736" then
    (if silent then mret () else sn ← serial_number d; emit (CorrectionNote sn));;
    mret (true, set_pixels 128 d)
  else mret (true, d).

(** [read_wavelengths] (lines 403-417). *)
Definition read_wavelengths (d : Device) : M (bool * Device) :=
  let d :=
    if bool_decide (Z.of_nat (length (wavelengths d)) ≠ pixels d)
    then set_wavelengths (resize (Z.to_nat (pixels d)) 0%float (wavelengths d)) d
    else d in
  let '(error, vals) := seabreeze_get_wavelengths (index d) (pixels d) in
  let d := set_wavelengths (write_prefix vals (wavelengths d)) (set_error error d) in
  check_for_error error;;
  mret (true, d).

(** A range-based [for] whose body works on the element itself
    ([auto & device]). *)
Fixpoint for_each_ref {A : Type} (l : list A) (body : A → M A) : M (list A) :=
  match l with
  | [] => mret []
  | a :: l' => a' ← body a; l'' ← for_each_ref l' body; mret (a' :: l'')
  end.

(** [Meter::pre], lines 750-772: the devices are opened by index until
    the first index the driver refuses, at most [MAX_DEVICES] of them;
    without a device the program ends. *)
Fixpoint open_devices (k : nat) (j : Z) (m : Meter) : Meter :=
  match k with
  | O => m
  | S k' =>
      let m := set_meter_error (seabreeze_open_spectrometer j) m in
      if bool_decide (meter_error m ≠ 0) then m
      else open_devices k' (u32 (j + 1))
             (set_devices (devices m ++ [new_Device j]) m)
  end.

Definition pre_devices (m : Meter) : M Meter :=
  let m := open_devices (Z.to_nat MAX_DEVICES) 0 (set_devices [] m) in
  if empty (devices m) then exit 1 else mret m.

(** Lines 809-824: the integration time and the trigger mode of every
    device. *)
Definition configure_device (device : Device) (st : Z * Meter) : M (Z * Meter) :=
  let '(i_dev, m) := st in
  t_us ← lift (integration_times_micro_seconds m !! Z.to_nat i_dev);
  let m := set_meter_error
             (seabreeze_set_integration_time_microsec (index device) t_us) m in
  let i_dev := u32 (i_dev + 1) in
  check_for_error (meter_error m);;
  let m := set_meter_error
             (seabreeze_set_trigger_mode (index device) (trigger_mode m)) m in
  check_for_error (meter_error m);;
  mret (i_dev, m).

Definition pre_configure (m : Meter) : M Meter :=
  '(_, m) ← for_each (devices m) configure_device (0, m);
  mret m.

(** Lines 826-847: the wavelengths of every device are read, and of
    these the first, the second and the last one are printed.  ([max]
    and [min], which start from the first one as well, are computed and
    not used.) *)
Definition wavelengths_note (device : Device) : option (float * float * float) :=
  first ← wavelengths device !! 0%nat;
  second ← wavelengths device !! 1%nat;
  final ← last (wavelengths device);
  Some (first, second, final).

Definition wavelengths_of (device : Device) : M Device :=
  '(_, device) ← read_wavelengths device;
  lift (wavelengths_note device);;
  mret device.

Definition pre_wavelengths (m : Meter) : M Meter :=
  ds ← for_each_ref (devices m) wavelengths_of;
  mret (set_devices ds m).

End Setup.

(** * The vocabulary of the properties *)

(** ** Smoothing *)

(** The number of rounds of the centre loop, as the [unsigned]
    comparison [i < n - boxcar] decides it. *)
Definition center_rounds (X : list float) (boxcar : Z) : Z :=
  Z.max 0 (u32 (u32 (Z.of_nat (length X)) - boxcar) - boxcar).

(** The mean of the [2r+1] samples of [X] centred at [i], summed from
    left to right: the value the specification names for an interior
    position. *)
Definition window_mean (X : list float) (i r : Z) : option float :=
  samples ← mapM (vget X) (seqZ (i - r) (2 * r + 1));
  Some (foldl PrimFloat.add 0%float samples / of_unsigned (2 * r + 1))%float.

Definition interior_is_window_mean (X : list float) (r : Z) (X' : list float)
    : Prop :=
  ∀ i, r <= i < Z.of_nat (length X) - r → vget X' i = window_mean X i r.

(** The vector the centre loop reads in the round for position [i]: the
    input [X] with the positions [r, ..., i-1] already holding their
    results [X']. *)
Definition partly_smoothed (X X' : list float) (r i : nat) : list float :=
  take r X ++ take (i - r) (drop r X') ++ drop i X.

(** ** Point repair *)

(** The tolerance band of the specification: from half the reference
    value to twice the reference value, both ends included. *)
Definition in_band (x reference : float) : bool :=
  ((0.5 * reference <=? x) && (x <=? 2 * reference))%float.

(** ** Runs and devices *)



(** The spectrum vector is as the program leaves it between calls:
    still empty, or of [pixels] elements. *)
Definition empty_or_sized (pixels : Z) (X : list float) : Prop :=
  X = [] ∨ Z.of_nat (length X) = pixels.

(** The spectrum a call of [read_spectrum] leaves in the device, when it
    returns. *)
Definition spectrum_of (r : outcome (bool * Device) * World)
    : option (list float) :=
  match r.1 with
  | Done (_, d) => Some (formatted_spectrum d)
  | _ => None
  end.

Definition baselines_present (d : Device) : Prop :=
  Z.of_nat (length (formatted_spectrum d)) = pixels d ∧
  Z.of_nat (length (background_spectrum d)) = pixels d ∧
  Z.of_nat (length (reference_spectrum d)) = pixels d.


(** ** Integration times *)

(** The time string that applies to device [i]: the [i]-th value given,
    or the last one when fewer were given. *)
Definition value_for (str_arr : list string) (i : nat) : option string :=
  str_arr !! Nat.min i (length str_arr - 1).

Definition micro_seconds_of (atof : string → float) (str : string) : option Z :=
  to_unsigned (atof str * 1e6)%float.

(** ** Teardown *)

(** The devices a trace closes, in the order of the calls. *)
Definition closed_indices (t : list event) : list Z :=
  omap (λ e, match e with CloseSpectrometer i => Some i | _ => None end) t.

(** The reading of teardown that closes every device whatever the
    driver answers. *)
Definition post_closes_every_device `{SeaBreeze} (m : Meter) (w : World) : Prop :=
  closed_indices (trace (post m w).2) =
    closed_indices (trace w) ++ map index (devices m).

(** A close that reports no error. *)
Definition closes_cleanly `{SeaBreeze} (device : Device) : Prop :=
  seabreeze_close_spectrometer (index device) = 0.

(** ** Concrete drivers, devices and meters *)

(** A scripted driver, for running the model on concrete devices. *)
Definition bench_driver (model serial : Z → Z * string)
    (spectrum : Z → nat → Z → Z * list float) (close : Z → Z) : SeaBreeze :=
  {| seabreeze_get_error_string := λ _, "seabreeze error"%string;
     seabreeze_get_model := model;
     seabreeze_get_serial_number := serial;
     seabreeze_get_formatted_spectrum := spectrum;
     seabreeze_close_spectrometer := close |}.

(** A driver that delivers the same scan on every request. *)
Definition constant_scan_driver (serial : string) (scan : list float)
    : SeaBreeze :=
  bench_driver (λ _, (0, "FLAME-S"%string)) (λ _, (0, serial))
    (λ _ _ _, (0, scan)) (λ _, 0).

Definition fresh_world : World := mkWorld [] 0.

(** A meter with the defaults of [Meter::initialize] and the given
    devices. *)
Definition bench_meter (integration_time_str : string) (ds : list Device)
    : Meter :=
  mkMeter (2 ^ 63 - 1) integration_time_str [] 1 1 1 0 false false 0 ds.

(** A stand-in for [atof] on plain decimal numerals (digits, a point,
    digits): the quotient of two exactly represented integers, which
    IEEE division rounds correctly. *)
Definition digit_of (c : ascii) : option Z :=
  let n := Z.of_nat (nat_of_ascii c) - 48 in
  if bool_decide (0 <= n <= 9) then Some n else None.

Fixpoint digits (s : string) (acc count : Z) : Z * Z * string :=
  match s with
  | String c s' =>
      match digit_of c with
      | Some d => digits s' (10 * acc + d) (count + 1)
      | None => (acc, count, s)
      end
  | EmptyString => (acc, count, s)
  end.

Definition atof_decimal (s : string) : float :=
  let '(whole, _, rest) := digits s 0 0 in
  match rest with
  | String "."%char rest' =>
      let '(m, k, _) := digits rest' whole 0 in
      (of_unsigned m / of_unsigned (10 ^ k))%float
  | _ => of_unsigned whole
  end.

(** ** Strings, options and the set-up *)

(** The fields of [s]: the pieces that end at a [delimiter] or, when
    something is left, at the end of the string.  [cur] holds the
    characters of the piece under way. *)
Fixpoint fields (delimiter : ascii) (s cur : string) : list string :=
  match s with
  | EmptyString => if String.eqb cur EmptyString then [] else [cur]
  | String c s' =>
      if Ascii.eqb c delimiter then cur :: fields delimiter s' EmptyString
      else fields delimiter s' (cur +:+ String c EmptyString)
  end.

(** [s] holds no [delimiter]. *)
Fixpoint free_of (delimiter : ascii) (s : string) : bool :=
  match s with
  | EmptyString => true
  | String c s' => negb (Ascii.eqb c delimiter) && free_of delimiter s'
  end.

(** The piece of [s] before its first [delimiter], and what follows
    that delimiter when there is one. *)
Fixpoint span (delimiter : ascii) (s : string) : string * option string :=
  match s with
  | EmptyString => (EmptyString, None)
  | String c s' =>
      if Ascii.eqb c delimiter then (EmptyString, Some s')
      else let '(a, r) := span delimiter s' in (String c a, r)
  end.

(** [s] is not empty and its last character is [delimiter]. *)
Fixpoint ends_with (delimiter : ascii) (s : string) : bool :=
  match s with
  | EmptyString => false
  | String c EmptyString => Ascii.eqb c delimiter
  | String _ s' => ends_with delimiter s'
  end.

(** [s] begins with two dashes, as an option does. *)
Definition starts_with_dashes (s : string) : bool :=
  match s with
  | String c (String c' _) => Ascii.eqb c "-" && Ascii.eqb c' "-"
  | _ => false
  end.

(** The value [get_value] returns; [get_value_total] shows that there
    always is one. *)
Definition value_of (p : Parser) (opt alternative_option : string) : string :=
  default EmptyString (get_value p opt alternative_option).

(** The arguments a parser built from the command line stores. *)
Definition stored_arguments (argc : Z) (args : list string) : list string :=
  drop 1 (take (Z.to_nat argc) args).

(** What [read_spectrum] never touches: the device without its error
    code, its scratch buffer and its spectrum. *)
Definition frame (d : Device) : Device :=
  set_error 0 (set_buffer [] (set_formatted_spectrum [] d)).

(** [d] is the device [d0] with a scratch buffer and a spectrum of
    [pixels] elements each. *)
Definition sized_like (d0 d : Device) : Prop :=
  Z.of_nat (length (formatted_spectrum d)) = pixels d0 ∧
  Z.of_nat (length (buffer d)) = pixels d0 ∧
  frame d = frame d0.

(** A scripted set-up driver: every index below [count] opens, every
    device reports [reported] pixels and the wavelengths [0, 1, 2, ...]
    and accepts every integration time and trigger mode. *)
Definition bench_setup (count reported : Z) : SeaBreezeSetup :=
  {| seabreeze_open_spectrometer := λ j, if bool_decide (j < count) then 0 else 2;
     seabreeze_get_formatted_spectrum_length := λ _, (0, reported);
     seabreeze_get_wavelengths :=
       λ _ n, (0, of_unsigned <$> seqZ 0 n);
     seabreeze_set_integration_time_microsec := λ _ _, 0;
     seabreeze_set_trigger_mode := λ _ _, 0 |}.

(** * Properties *)

(** ** Machine numbers *)

(** Conversions at the ends of their ranges: truncation is towards
    zero, and a value that does not fit the target type has no result. *)
Example conversions :
  of_unsigned 4294967295 = 4294967295%float ∧
  to_unsigned 2.75 = Some 2 ∧
  to_unsigned (-0.5) = Some 0 ∧
  to_unsigned (-1) = None ∧
  to_unsigned 4294967295.5 = Some 4294967295 ∧
  to_unsigned 4294967296 = None ∧
  to_unsigned infinity = None ∧
  to_unsigned nan = None ∧
  to_unsigned_long 4294967296 = Some 4294967296.
Proof. repeat split; vm_compute; reflexivity. Qed.

(** ** Loops *)

Lemma for_range_empty {St : Type} (lo hi : Z) (body : Z → St → option St) (s : St) :
  hi <= lo → for_range lo hi body s = Some s.
Proof.
  intros Hle. unfold for_range.
  replace (Z.to_nat (hi - lo)) with 0%nat by lia. reflexivity.
Qed.

Lemma for_range_step {St : Type} (lo hi : Z) (body : Z → St → option St) (s : St) :
  lo < hi →
  for_range lo hi body s = (s' ← body lo s; for_range (lo + 1) hi body s').
Proof.
  intros Hlt. unfold for_range.
  replace (Z.to_nat (hi - lo)) with (S (Z.to_nat (hi - (lo + 1)))) by lia.
  reflexivity.
Qed.

(** A loop whose first round leaves the vector is undefined, however
    many rounds were to follow. *)
Lemma for_range_first_undefined {St : Type} (lo hi : Z)
    (body : Z → St → option St) (s : St) :
  lo < hi → body lo s = None → for_range lo hi body s = None.
Proof.
  intros Hlt Hbody. rewrite for_range_step by done. by rewrite Hbody.
Qed.

Lemma for_loop_ext {St : Type} (k : nat) (lo : Z)
    (body body' : Z → St → option St) (s : St) :
  (∀ i s, body i s = body' i s) →
  for_loop k lo body s = for_loop k lo body' s.
Proof.
  intros Hext. revert lo s.
  induction k as [|k IH]; intros lo s; [done|].
  simpl. rewrite Hext. destruct (body' lo s); simpl; [apply IH|done].
Qed.

(** [push_back] of one computed value per round. *)
Lemma for_loop_collect {A : Type} (f : Z → option A) (k : nat) (lo : Z)
    (acc : list A) :
  (∀ j, (j < k)%nat → is_Some (f (lo + Z.of_nat j))) →
  ∃ l, for_loop k lo (λ i acc, x ← f i; Some (acc ++ [x])) acc = Some (acc ++ l)
       ∧ length l = k
       ∧ ∀ j, (j < k)%nat → l !! j = f (lo + Z.of_nat j).
Proof.
  revert lo acc. induction k as [|k IH]; intros lo acc Hdef.
  - exists []. rewrite app_nil_r. split; [done|]. split; [done|].
    intros j Hj. lia.
  - destruct (Hdef 0%nat) as [x Hx]; [lia|].
    rewrite Z.add_0_r in Hx.
    destruct (IH (lo + 1) (acc ++ [x])) as (l & Hrun & Hlen & Hl).
    { intros j Hj. replace (lo + 1 + Z.of_nat j) with (lo + Z.of_nat (S j)) by lia.
      apply Hdef. lia. }
    exists (x :: l). simpl. rewrite Hx. simpl. rewrite Hrun.
    split; [by rewrite <- app_assoc|]. split; [by rewrite Hlen|].
    intros [|j] Hj; simpl.
    + by rewrite Z.add_0_r.
    + rewrite Hl by lia. f_equal. lia.
Qed.

(** A loop whose body is defined and keeps an invariant runs to its end
    and establishes the invariant there. *)
Lemma for_range_invariant {St : Type} (P : Z → St → Prop) (lo hi : Z)
    (body : Z → St → option St) (s : St) :
  lo <= hi →
  P lo s →
  (∀ i s, lo <= i < hi → P i s → ∃ s', body i s = Some s' ∧ P (i + 1) s') →
  ∃ s', for_range lo hi body s = Some s' ∧ P hi s'.
Proof.
  intros Hle HP Hbody. unfold for_range.
  remember (Z.to_nat (hi - lo)) as k eqn:Hk.
  revert lo s Hle HP Hbody Hk.
  induction k as [|k IH]; intros lo s Hle HP Hbody Hk.
  - exists s. split; [done|]. by replace hi with lo by lia.
  - destruct (Hbody lo s) as (s' & Hs' & HP'); [lia|done|].
    destruct (IH (lo + 1) s') as (s'' & Hrun & HP''); [lia|done| |lia|].
    { intros i s0 Hi. apply Hbody. lia. }
    exists s''. simpl. rewrite Hs'. done.
Qed.

(** What every defined round keeps, a loop that returns keeps. *)
Lemma for_range_preserves {St : Type} (P : St → Prop) (lo hi : Z)
    (body : Z → St → option St) (s s' : St) :
  for_range lo hi body s = Some s' →
  P s →
  (∀ i s s1, lo <= i < hi → P s → body i s = Some s1 → P s1) →
  P s'.
Proof.
  unfold for_range. remember (Z.to_nat (hi - lo)) as k eqn:Hk.
  revert lo s Hk. induction k as [|k IH]; intros lo s Hk Hrun HP Hbody.
  - by injection Hrun as <-.
  - simpl in Hrun. destruct (body lo s) as [s1|] eqn:Hs1; [|done].
    simpl in Hrun. apply (IH (lo + 1) s1); [lia|done| |].
    + apply (Hbody lo s); [lia|done..].
    + intros i s0 s2 Hi. apply Hbody. lia.
Qed.

(** The same for an invariant that moves with the loop counter. *)
Lemma for_range_preserves_at {St : Type} (P : Z → St → Prop) (lo hi : Z)
    (body : Z → St → option St) (s s' : St) :
  for_range lo hi body s = Some s' →
  lo <= hi →
  P lo s →
  (∀ i s s1, lo <= i < hi → P i s → body i s = Some s1 → P (i + 1) s1) →
  P hi s'.
Proof.
  unfold for_range. remember (Z.to_nat (hi - lo)) as k eqn:Hk.
  revert lo s Hk. induction k as [|k IH]; intros lo s Hk Hrun Hle HP Hbody.
  - injection Hrun as <-. by replace hi with lo by lia.
  - simpl in Hrun. destruct (body lo s) as [s1|] eqn:Hs1; [|done].
    simpl in Hrun. apply (IH (lo + 1) s1); [lia|done|lia| |].
    + apply (Hbody lo s); [lia|done..].
    + intros i s0 s2 Hi. apply Hbody. lia.
Qed.

(** ** Vector accesses *)

Lemma vget_lookup (X : list float) (i : nat) :
  vget X (Z.of_nat i) = X !! i.
Proof.
  unfold vget. rewrite bool_decide_true by lia. by rewrite Nat2Z.id.
Qed.

Lemma vget_in_range (X : list float) (i : Z) :
  0 <= i < Z.of_nat (length X) → is_Some (vget X i).
Proof.
  intros Hi. unfold vget. rewrite bool_decide_true by lia.
  apply lookup_lt_is_Some_2. lia.
Qed.

Lemma vset_in_range (X : list float) (i : nat) (v : float) :
  (i < length X)%nat → vset X (Z.of_nat i) v = Some (<[i := v]> X).
Proof.
  intros Hi. unfold vset. rewrite bool_decide_true by lia.
  by rewrite Nat2Z.id.
Qed.

Lemma vset_defined (X : list float) (i : Z) (v : float) :
  0 <= i < Z.of_nat (length X) →
  ∃ X', vset X i v = Some X' ∧ length X' = length X.
Proof.
  intros Hi. unfold vset. rewrite bool_decide_true by lia.
  eexists. split; [done|]. by rewrite length_insert.
Qed.

Lemma vset_spec (X : list float) (i : Z) (v : float) (X' : list float) :
  vset X i v = Some X' →
  0 <= i < Z.of_nat (length X) ∧ X' = <[Z.to_nat i := v]> X.
Proof.
  unfold vset. case_bool_decide; [|done]. by intros [= <-].
Qed.

Lemma sum_range_defined (lo hi : Z) (X : list float) :
  0 <= lo → hi <= Z.of_nat (length X) → is_Some (sum_range lo hi X).
Proof.
  intros Hlo Hhi. unfold sum_range.
  destruct (Z.le_gt_cases lo hi) as [Hle|Hgt].
  - destruct (for_range_invariant (λ _ _, True) lo hi
                (λ i average, x ← vget X i; Some (average + x)%float) 0%float)
      as (a & -> & _); [done|done| |done].
    intros i s Hi _. destruct (vget_in_range X i) as [x ->]; [lia|].
    by eexists.
  - rewrite for_range_empty by lia. done.
Qed.

Lemma fill_range_defined (lo hi : Z) (v : float) (X : list float) :
  0 <= lo → hi <= Z.of_nat (length X) →
  ∃ X', fill_range lo hi v X = Some X' ∧ length X' = length X.
Proof.
  intros Hlo Hhi. unfold fill_range.
  destruct (Z.le_gt_cases lo hi) as [Hle|Hgt].
  - apply (for_range_invariant (λ _ X', length X' = length X)); [done|done|].
    intros i X' Hi Hlen.
    destruct (vset_defined X' i v) as (X'' & -> & Hlen'); [lia|].
    exists X''. split; [done|congruence].
  - rewrite for_range_empty by lia. by exists X.
Qed.

Lemma fill_loop (k : nat) (v : float) (pre rest : list float) :
  length rest = k →
  for_loop k (Z.of_nat (length pre)) (λ i X, vset X i v) (pre ++ rest)
    = Some (pre ++ replicate k v).
Proof.
  revert pre rest. induction k as [|k IH]; intros pre [|x rest] Hlen;
    try done.
  cbn [for_loop replicate].
  rewrite vset_in_range by (rewrite length_app; simpl; lia).
  rewrite insert_app_r_alt by lia. rewrite Nat.sub_diag. simpl.
  replace (Z.of_nat (length pre) + 1) with (Z.of_nat (length (pre ++ [v])))
    by (rewrite length_app; simpl; lia).
  rewrite (cons_middle v pre rest), app_assoc.
  rewrite IH by (simpl in Hlen; lia). by rewrite <- app_assoc.
Qed.

Lemma fill_range_all (v : float) (X : list float) :
  fill_range 0 (Z.of_nat (length X)) v X = Some (replicate (length X) v).
Proof.
  unfold fill_range, for_range. rewrite Z.sub_0_r, Nat2Z.id.
  apply (fill_loop (length X) v [] X). done.
Qed.

Lemma fill_range_frame (lo hi : Z) (v : float) (X X' : list float) (k : nat) :
  fill_range lo hi v X = Some X' →
  ¬ (lo <= Z.of_nat k < hi) → X' !! k = X !! k.
Proof.
  intros Hrun Hk.
  apply (for_range_preserves (λ X', X' !! k = X !! k) _ _ _ _ _ Hrun); [done|].
  intros i X0 X1 Hi HP Hset. apply vset_spec in Hset as [? ->].
  rewrite list_lookup_insert_ne by lia. done.
Qed.

(** ** The smoother *)

Example average_vector_examples :
  average_vector [1; 2; 3; 4; 5; 6; 7]%float 2
    = Some (true, [1.5; 1.5; 3; 4; 5; 6.5; 6.5]%float) ∧
  average_vector [1; 2; 3]%float 2 = Some (true, [1.5; 2.25; 2.25]%float) ∧
  average_vector [1; 2; 3]%float 0 = Some (false, [1; 2; 3]%float).
Proof. repeat split; vm_compute; reflexivity. Qed.

Lemma average_vector_applicable (X : list float) (boxcar : Z) :
  X ≠ [] → 0 < boxcar →
  average_vector X boxcar =
    (X ← center_pass boxcar X; X ← left_end boxcar X;
     X ← right_end boxcar X; Some (true, X)).
Proof.
  intros HX Hb. unfold average_vector.
  destruct X as [|x X]; [done|]. simpl.
  destruct (Z.leb_spec boxcar 0); [lia|done].
Qed.

Lemma center_pass_skipped (X : list float) (boxcar : Z) :
  center_rounds X boxcar = 0 → center_pass boxcar X = Some X.
Proof.
  unfold center_rounds, center_pass. intros Hr.
  apply for_range_empty. lia.
Qed.

(** When the vector is at least as long as the radius and shorter than
    twice the radius, the centre loop does not run. *)
Lemma center_rounds_short (X : list float) (boxcar : Z) :
  boxcar <= Z.of_nat (length X) < 2 * boxcar →
  Z.of_nat (length X) < 2 ^ 32 →
  center_rounds X boxcar = 0.
Proof.
  intros Hn Hsize. unfold center_rounds, u32.
  rewrite (Z.mod_small (Z.of_nat _)) by lia.
  rewrite Z.mod_small by lia. lia.
Qed.

(** When the vector is shorter than the radius, [n - boxcar] wraps
    around and the centre loop starts at [X[boxcar]], outside the
    vector. *)
Lemma center_pass_wraps (X : list float) (boxcar : Z) :
  Z.of_nat (length X) < boxcar <= 2 ^ 31 →
  X ≠ [] →
  0 < center_rounds X boxcar ∧ center_pass boxcar X = None.
Proof.
  intros Hn HX.
  assert (0 < Z.of_nat (length X)) by (destruct X; [done|simpl; lia]).
  assert (Hwrap : u32 (u32 (Z.of_nat (length X)) - boxcar)
                  = 2 ^ 32 + Z.of_nat (length X) - boxcar).
  { unfold u32. rewrite (Z.mod_small (Z.of_nat _)) by lia.
    rewrite <- (Z.mod_add _ 1) by lia. rewrite Z.mod_small; lia. }
  split.
  - unfold center_rounds. rewrite Hwrap. lia.
  - unfold center_pass. apply for_range_first_undefined.
    + rewrite Hwrap. lia.
    + unfold center_step, window_value, vget.
      rewrite bool_decide_true by lia.
      rewrite lookup_ge_None_2 by lia. reflexivity.
Qed.

Lemma center_step_defined (boxcar i : Z) (X : list float) :
  0 < boxcar → Z.of_nat (length X) < 2 ^ 32 →
  boxcar <= i < Z.of_nat (length X) - boxcar →
  ∃ X', center_step boxcar i X = Some X' ∧ length X' = length X.
Proof.
  intros Hb Hsize Hi. unfold center_step, window_value.
  destruct (vget_in_range X i) as [x0 ->]; [lia|]. simpl.
  destruct (for_range_invariant (λ _ _, True) 1 (boxcar + 1)
              (λ j average,
                 a ← vget X (u32 (i + j));
                 b ← vget X (u32 (i - j));
                 Some (average + (a + b))%float) x0)
    as (average & -> & _); [lia|done| |].
  - intros j s Hj _. unfold u32. rewrite !Z.mod_small by lia.
    destruct (vget_in_range X (i + j)) as [a ->]; [lia|].
    destruct (vget_in_range X (i - j)) as [b ->]; [lia|].
    by eexists.
  - simpl. apply vset_defined. lia.
Qed.

Lemma center_pass_defined (boxcar : Z) (X : list float) :
  0 < boxcar <= Z.of_nat (length X) → Z.of_nat (length X) < 2 ^ 32 →
  ∃ X', center_pass boxcar X = Some X' ∧ length X' = length X.
Proof.
  intros Hb Hsize. unfold center_pass, u32.
  rewrite (Z.mod_small (Z.of_nat _)) by lia. rewrite Z.mod_small by lia.
  destruct (Z.le_gt_cases boxcar (Z.of_nat (length X) - boxcar)) as [Hle|Hgt].
  - apply (for_range_invariant (λ _ X', length X' = length X)); [done|done|].
    intros i X' Hi Hlen.
    destruct (center_step_defined boxcar i X') as (X'' & -> & Hlen'); [lia..|].
    exists X''. split; [done|congruence].
  - rewrite for_range_empty by lia. by exists X.
Qed.

Lemma left_end_defined (boxcar : Z) (X : list float) :
  0 < boxcar <= Z.of_nat (length X) →
  ∃ X', left_end boxcar X = Some X' ∧ length X' = length X.
Proof.
  intros Hb. unfold left_end.
  destruct (sum_range_defined 0 boxcar X) as [a ->]; [lia..|]. simpl.
  apply fill_range_defined; lia.
Qed.

Lemma right_end_defined (boxcar : Z) (X : list float) :
  0 < boxcar <= Z.of_nat (length X) → Z.of_nat (length X) < 2 ^ 32 →
  ∃ X', right_end boxcar X = Some X' ∧ length X' = length X.
Proof.
  intros Hb Hsize. unfold right_end, u32.
  rewrite (Z.mod_small (Z.of_nat _)) by lia. rewrite Z.mod_small by lia.
  destruct (sum_range_defined (Z.of_nat (length X) - boxcar)
              (Z.of_nat (length X)) X) as [a ->]; [lia..|]. simpl.
  apply fill_range_defined; lia.
Qed.

(** A vector at least as long as the radius is smoothed without any
    access outside it, and keeps its length. *)
Lemma average_vector_defined (X : list float) (boxcar : Z) :
  0 < boxcar <= Z.of_nat (length X) → Z.of_nat (length X) < 2 ^ 32 →
  ∃ X', average_vector X boxcar = Some (true, X') ∧ length X' = length X.
Proof.
  intros Hb Hsize.
  rewrite average_vector_applicable by (destruct X; [simpl in *|]; done || lia).
  destruct (center_pass_defined boxcar X) as (X1 & -> & H1); [done..|]. simpl.
  destruct (left_end_defined boxcar X1) as (X2 & -> & H2); [lia|]. simpl.
  destruct (right_end_defined boxcar X2) as (X3 & -> & H3); [lia..|]. simpl.
  exists X3. split; [done|congruence].
Qed.

(** Between the radius and twice the radius the centre loop is skipped:
    the two end passes, which overlap, are all that writes to [X]. *)
Lemma average_vector_short (X : list float) (boxcar : Z) :
  0 < boxcar <= Z.of_nat (length X) → Z.of_nat (length X) < 2 * boxcar →
  Z.of_nat (length X) < 2 ^ 32 →
  center_rounds X boxcar = 0 ∧
  average_vector X boxcar =
    (X ← left_end boxcar X; X ← right_end boxcar X; Some (true, X)) ∧
  is_Some (average_vector X boxcar).
Proof.
  intros Hb Hshort Hsize.
  assert (Hr : center_rounds X boxcar = 0) by (apply center_rounds_short; lia).
  split; [done|]. split.
  - rewrite average_vector_applicable by (destruct X; [simpl in *|]; done || lia).
    by rewrite center_pass_skipped.
  - destruct (average_vector_defined X boxcar) as (X' & -> & _); done.
Qed.

Lemma center_step_writes (boxcar i : Z) (X X' : list float) :
  center_step boxcar i X = Some X' →
  ∃ v, window_value boxcar i X = Some v ∧ vset X i v = Some X'.
Proof.
  unfold center_step.
  destruct (window_value boxcar i X) as [v|]; [|done]. simpl.
  intros Hset. by eexists.
Qed.

Lemma left_end_frame (boxcar : Z) (X X' : list float) (k : nat) :
  left_end boxcar X = Some X' → boxcar <= Z.of_nat k → X' !! k = X !! k.
Proof.
  unfold left_end. destruct (sum_range 0 boxcar X); [|done]. simpl.
  intros Hrun Hk. eapply fill_range_frame; [done|lia].
Qed.

Lemma right_end_frame (boxcar : Z) (X X' : list float) (k : nat) :
  right_end boxcar X = Some X' →
  Z.of_nat k < u32 (u32 (Z.of_nat (length X)) - boxcar) →
  X' !! k = X !! k.
Proof.
  unfold right_end. destruct (sum_range _ _ X); [|done]. simpl.
  intros Hrun Hk. eapply fill_range_frame; [done|lia].
Qed.

Lemma partly_smoothed_lookup (X X' : list float) (r i k : nat) :
  length X' = length X → (r <= i <= length X)%nat →
  partly_smoothed X X' r i !! k =
    if decide (r <= k < i)%nat then X' !! k else X !! k.
Proof.
  intros Hlen Hri. unfold partly_smoothed.
  destruct (decide (k < r)%nat) as [Hk|Hk].
  - rewrite lookup_app_l by (rewrite length_take; lia).
    rewrite lookup_take_lt by lia. by rewrite decide_False by lia.
  - rewrite lookup_app_r by (rewrite length_take; lia).
    rewrite length_take, Nat.min_l by lia.
    destruct (decide (k < i)%nat) as [Hki|Hki].
    + rewrite lookup_app_l by (rewrite length_take, length_drop; lia).
      rewrite lookup_take_lt by lia. rewrite lookup_drop.
      rewrite decide_True by lia. f_equal. lia.
    + rewrite lookup_app_r by (rewrite length_take, length_drop; lia).
      rewrite length_take, length_drop, Nat.min_l by lia.
      rewrite lookup_drop. rewrite decide_False by lia. f_equal. lia.
Qed.

Lemma partly_smoothed_self (X S : list float) (r i : nat) :
  length S = length X → (r <= i <= length X)%nat →
  (∀ k, (k < r ∨ i <= k)%nat → S !! k = X !! k) →
  partly_smoothed X S r i = S.
Proof.
  intros Hlen Hri Hout. apply list_eq. intros k.
  rewrite partly_smoothed_lookup by done.
  case_decide; [done|]. symmetry. apply Hout. lia.
Qed.

Lemma partly_smoothed_ext (X A B : list float) (r i : nat) :
  length A = length X → length B = length X → (r <= i <= length X)%nat →
  (∀ k, (r <= k < i)%nat → A !! k = B !! k) →
  partly_smoothed X A r i = partly_smoothed X B r i.
Proof.
  intros HA HB Hri Hin. apply list_eq. intros k.
  rewrite !partly_smoothed_lookup by done.
  case_decide; [by apply Hin|done].
Qed.

(** What the centre loop leaves: positions outside the interior as they
    were, and every interior position with the window value of the
    vector of its round. *)
Lemma center_pass_spec (X C : list float) (r : nat) :
  (0 < r)%nat → (2 * r <= length X)%nat → Z.of_nat (length X) < 2 ^ 32 →
  center_pass (Z.of_nat r) X = Some C →
  length C = length X ∧
  (∀ k, (k < r ∨ length X - r <= k)%nat → C !! k = X !! k) ∧
  (∀ k, (r <= k < length X - r)%nat →
        C !! k = window_value (Z.of_nat r) (Z.of_nat k) (partly_smoothed X C r k)).
Proof.
  intros Hr Hn Hsize Hrun. unfold center_pass in Hrun.
  assert (Hwrap : u32 (u32 (Z.of_nat (length X)) - Z.of_nat r)
                  = Z.of_nat (length X - r)).
  { unfold u32. rewrite (Z.mod_small (Z.of_nat _)) by lia.
    rewrite Z.mod_small; lia. }
  rewrite Hwrap in Hrun.
  pose (P := λ (i : Z) (S : list float),
    length S = length X ∧
    (∀ k, (k < r)%nat ∨ i <= Z.of_nat k → S !! k = X !! k) ∧
    (∀ k, (r <= k)%nat → Z.of_nat k < i →
          S !! k = window_value (Z.of_nat r) (Z.of_nat k)
                     (partly_smoothed X S r k))).
  assert (HP : P (Z.of_nat (length X - r)) C).
  { apply (for_range_preserves_at P _ _ _ _ _ Hrun); [lia| |].
    - split; [done|]. split; [done|]. intros k Hk1 Hk2. lia.
    - intros i S S1 Hi (Hlen & Hout & Hin) Hstep.
      apply center_step_writes in Hstep as (v & Hv & Hset).
      apply vset_spec in Hset as [Hi' ->].
      assert (HS : partly_smoothed X S r (Z.to_nat i) = S).
      { apply partly_smoothed_self; [done|lia|].
        intros k Hk. apply Hout. lia. }
      split; [by rewrite length_insert|]. split.
      + intros k Hk. rewrite list_lookup_insert_ne by lia. apply Hout. lia.
      + intros k Hk1 Hk2.
        assert (Hps : partly_smoothed X (<[Z.to_nat i:=v]> S) r k
                      = partly_smoothed X S r k).
        { apply partly_smoothed_ext; [by rewrite length_insert|done|lia|].
          intros j Hj. apply list_lookup_insert_ne. lia. }
        rewrite Hps.
        destruct (decide (Z.of_nat k = i)) as [<-|Hne].
        * rewrite Nat2Z.id. rewrite list_lookup_insert_eq by lia.
          rewrite Nat2Z.id in HS. by rewrite HS.
        * rewrite list_lookup_insert_ne by lia. apply Hin; lia. }
  destruct HP as (Hlen & Hout & Hin).
  split; [done|]. split.
  - intros k Hk. apply Hout. lia.
  - intros k Hk. apply Hin; lia.
Qed.

(** What an interior position holds in the end: the window value of the
    input in which the interior positions to its left already hold their
    results. *)
Lemma average_vector_interior (X X' : list float) (r : nat) :
  (0 < r)%nat → (2 * r < length X)%nat → Z.of_nat (length X) < 2 ^ 32 →
  average_vector X (Z.of_nat r) = Some (true, X') →
  ∀ i, (r <= i < length X - r)%nat →
       X' !! i = window_value (Z.of_nat r) (Z.of_nat i) (partly_smoothed X X' r i).
Proof.
  intros Hr Hn Hsize.
  rewrite average_vector_applicable by (destruct X; [simpl in *|]; done || lia).
  destruct (center_pass (Z.of_nat r) X) as [C|] eqn:HC; [|done]. simpl.
  destruct (left_end (Z.of_nat r) C) as [X2|] eqn:H2; [|done]. simpl.
  destruct (right_end (Z.of_nat r) X2) as [X3|] eqn:H3; [|done]. simpl.
  intros [= <-] i Hi.
  destruct (center_pass_spec X C r) as (HlC & Hout & Hin); [lia..|done|].
  assert (Hl2 : length X2 = length X).
  { destruct (left_end_defined (Z.of_nat r) C) as (Y & HY & ?); [lia|].
    congruence. }
  assert (Hl3 : length X3 = length X).
  { destruct (right_end_defined (Z.of_nat r) X2) as (Y & HY & ?); [lia..|].
    congruence. }
  assert (Hsame : ∀ k, (r <= k < length X - r)%nat → X3 !! k = C !! k).
  { intros k Hk.
    rewrite (right_end_frame (Z.of_nat r) X2 X3); [|done|].
    - apply (left_end_frame (Z.of_nat r) C X2); [done|lia].
    - unfold u32. rewrite (Z.mod_small (Z.of_nat _)) by lia.
      rewrite Z.mod_small; lia. }
  rewrite Hsame by done. rewrite Hin by done. f_equal.
  apply partly_smoothed_ext; [done|done|lia|].
  intros k Hk. symmetry. apply Hsame. lia.
Qed.

(** The first interior position is computed from the input alone. *)
Lemma average_vector_first_interior (X X' : list float) (r : nat) :
  (0 < r)%nat → (2 * r < length X)%nat → Z.of_nat (length X) < 2 ^ 32 →
  average_vector X (Z.of_nat r) = Some (true, X') →
  X' !! r = window_value (Z.of_nat r) (Z.of_nat r) X.
Proof.
  intros Hr Hn Hsize Hrun.
  rewrite (average_vector_interior X X' r) by (done || lia).
  unfold partly_smoothed. rewrite Nat.sub_diag. simpl.
  by rewrite take_drop.
Qed.

(** C1.  The centre loop averages in place: from the second interior
    position on, the left half of the window has already been
    overwritten.  On [0, 3, 0, 0, 0] with radius 1 position 2 ends as
    [(0 + (0 + 1)) / 3], one third, while the window [3, 0, 0] of the
    input has mean 1; so interior positions do not in general hold the
    mean of the original window. *)
Theorem average_vector_reads_smoothed_values :
  let X := [0; 3; 0; 0; 0]%float in
  (∃ X', average_vector X 1 = Some (true, X') ∧
         vget X' 2 = Some (1 / 3)%float) ∧
  window_mean X 2 1 = Some 1%float ∧
  ¬ (∀ (X : list float) (r : Z) (X' : list float),
       0 < r → 2 * r < Z.of_nat (length X) →
       average_vector X r = Some (true, X') →
       interior_is_window_mean X r X').
Proof.
  intros X. split; [|split].
  - eexists. split; [vm_compute; reflexivity|]. vm_compute. reflexivity.
  - vm_compute. reflexivity.
  - intros Hall.
    specialize (Hall X 1 [0; 1; 1 / 3; 1 / 9; 0]%float).
    assert (Hi : vget [0; 1; 1 / 3; 1 / 9; 0]%float 2 = window_mean X 2 1).
    { apply Hall; [lia|simpl; lia|vm_compute; reflexivity|simpl; lia]. }
    apply (f_equal (λ o, match o with
                         | Some y => PrimFloat.eqb y 1
                         | None => true
                         end)) in Hi.
    vm_compute in Hi. discriminate.
Qed.

(** C4.  A vector shorter than the radius: for [X = [1.0]] and radius 2
    the bound [n - boxcar] of the centre loop wraps to [2^32 - 1], the
    loop is entered with [i = 2] and reads [X[2]], outside the vector. *)
Theorem average_vector_short_vector_out_of_bounds :
  let X := [1%float] in
  Z.of_nat (length X) < 2 * 2 ∧
  center_rounds X 2 = 2 ^ 32 - 3 ∧
  center_step 2 2 X = None ∧
  average_vector X 2 = None.
Proof.
  intros X. split; [simpl; lia|]. split; [reflexivity|].
  split; [reflexivity|].
  rewrite average_vector_applicable by (done || lia).
  destruct (center_pass_wraps X 2) as [_ ->]; [simpl; lia|done|done].
Qed.

(** ** Running effectful code *)

Lemma bind_Done {A B : Type} (m : M A) (f : A → M B) (w w' : World) (a : A) :
  m w = (Done a, w') → (m ≫= f) w = f a w'.
Proof. intros Hm. unfold mbind, M_bind. by rewrite Hm. Qed.

Lemma bind_Exited {A B : Type} (m : M A) (f : A → M B) (w w' : World) (status : Z) :
  m w = (Exited status, w') → (m ≫= f) w = (Exited status, w').
Proof. intros Hm. unfold mbind, M_bind. by rewrite Hm. Qed.



(** ** check_for_error and the identity queries *)

Section DriverProperties.
Context `{SeaBreeze}.

Lemma check_for_error_success (w : World) :
  check_for_error 0 w = (Done true, w).
Proof. reflexivity. Qed.

Lemma check_for_error_failure (e : Z) (w : World) :
  e ≠ 0 →
  check_for_error e w =
    (Exited 1,
     mkWorld (trace w ++ [ErrorReport e (seabreeze_get_error_string e)])
             (scans_read w)).
Proof.
  intros He. unfold check_for_error. by rewrite bool_decide_true.
Qed.

Lemma serial_number_success (d : Device) (w : World) (name : string) :
  seabreeze_get_serial_number (index d) = (0, name) →
  serial_number d w =
    (Done name, mkWorld (trace w ++ [GetSerialNumber (index d)]) (scans_read w)).
Proof. intros Hq. unfold serial_number. rewrite Hq. reflexivity. Qed.

(** C5.  A non-zero error code of the serial-number or model-name query
    reaches [check_for_error] first, which reports it and ends the
    process with exit status 1; the branch that returns ["unknown"] is
    never taken, and a name that is returned is the driver's own, read
    without error. *)
Theorem identity_query_error_exits (d : Device) (w : World) (e : Z)
    (name : string) :
  e ≠ 0 →
  (seabreeze_get_serial_number (index d) = (e, name) →
   serial_number d w =
     (Exited 1,
      mkWorld (trace w ++ [GetSerialNumber (index d);
                           ErrorReport e (seabreeze_get_error_string e)])
              (scans_read w))) ∧
  (seabreeze_get_model (index d) = (e, name) →
   model_name d w =
     (Exited 1,
      mkWorld (trace w ++ [GetModel (index d);
                           ErrorReport e (seabreeze_get_error_string e)])
              (scans_read w))) ∧
  (∀ s w', serial_number d w = (Done s, w') →
           seabreeze_get_serial_number (index d) = (0, s)) ∧
  (∀ s w', model_name d w = (Done s, w') →
           seabreeze_get_model (index d) = (0, s)).
Proof.
  intros He. repeat split.
  - intros Hq. unfold serial_number. rewrite Hq.
    unfold mbind, M_bind, emit. rewrite check_for_error_failure by done.
    simpl. by rewrite <- app_assoc.
  - intros Hq. unfold model_name. rewrite Hq.
    unfold mbind, M_bind, emit. rewrite check_for_error_failure by done.
    simpl. by rewrite <- app_assoc.
  - intros s w'. unfold serial_number.
    destruct (seabreeze_get_serial_number (index d)) as [e' name'].
    unfold mbind, M_bind, emit, check_for_error.
    case_bool_decide as He'; simpl; [done|].
    unfold mret, M_ret. intros [= <- <-]. f_equal. lia.
  - intros s w'. unfold model_name.
    destruct (seabreeze_get_model (index d)) as [e' name'].
    unfold mbind, M_bind, emit, check_for_error.
    case_bool_decide as He'; simpl; [done|].
    unfold mret, M_ret. intros [= <- <-]. f_equal. lia.
Qed.

End DriverProperties.

Lemma identity_query_error_exits_witness :
  let driver := bench_driver (λ _, (1, ""%string)) (λ _, (1, ""%string))
                  (λ _ _ _, (0, [])) (λ _, 0) in
  @serial_number driver (new_Device 0) fresh_world =
    (Exited 1, mkWorld [GetSerialNumber 0; ErrorReport 1 "seabreeze error"] 0) ∧
  @model_name driver (new_Device 0) fresh_world =
    (Exited 1, mkWorld [GetModel 0; ErrorReport 1 "seabreeze error"] 0).
Proof.
  intros driver.
  destruct (@identity_query_error_exits driver (new_Device 0) fresh_world 1 "")
    as (Hserial & Hmodel & _); [lia|].
  split; [apply Hserial|apply Hmodel]; reflexivity.
Defined.

(** ** Point repair *)

Lemma SFcompare_antisym (f1 f2 : spec_float) :
  SFcompare f2 f1 = CompOpp <$> SFcompare f1 f2.
Proof.
  destruct f1, f2; simpl;
    repeat match goal with s : bool |- _ => destruct s end;
    simpl; try done;
    match goal with
    | |- context [(?e1 ?= ?e2)%Z] =>
        rewrite (Z.compare_antisym e2 e1); destruct (e2 ?= e1)%Z
    end; simpl; try done;
    match goal with
    | |- context [CompOpp (Pos.compare_cont Eq ?p ?q)] =>
        rewrite (Pos.compare_cont_antisym p q Eq)
    end; simpl; by rewrite ?CompOpp_involutive.
Qed.

Lemma SFcompare_defined (f1 f2 : spec_float) :
  f1 ≠ S754_nan → f2 ≠ S754_nan → is_Some (SFcompare f1 f2).
Proof.
  destruct f1, f2; simpl; done.
Qed.

Lemma is_nan_false (x : float) : is_nan x = false → Prim2SF x ≠ S754_nan.
Proof.
  unfold is_nan. rewrite FloatAxioms.eqb_spec. intros Hx Hnan.
  rewrite Hnan in Hx. discriminate.
Qed.

(** On numbers, [<] is the negation of the converse [<=]. *)
Lemma ltb_negb_leb (x y : float) :
  is_nan x = false → is_nan y = false → (x <? y)%float = negb (y <=? x)%float.
Proof.
  intros Hx%is_nan_false Hy%is_nan_false.
  rewrite FloatAxioms.ltb_spec, FloatAxioms.leb_spec. unfold SFltb, SFleb.
  rewrite (SFcompare_antisym (Prim2SF x) (Prim2SF y)).
  destruct (SFcompare_defined _ _ Hx Hy) as [c ->]. by destruct c.
Qed.

(** On numbers, the tolerance test of the source is "outside the band". *)
Lemma out_of_tolerance_band (x corr : float) :
  is_nan x = false → is_nan (0.5 * corr) = false → is_nan (2 * corr) = false →
  ((x <? 0.5 * corr) || (2 * corr <? x))%float = negb (in_band x corr).
Proof.
  intros Hx Hlo Hhi. unfold in_band.
  rewrite (ltb_negb_leb x), (ltb_negb_leb (2 * corr)) by done.
  by rewrite negb_andb.
Qed.

Lemma repair_loop (b0 b1 b2 : float) (rest : list float) :
  for_range 0 2
    (λ i buffer,
       x ← vget buffer i;
       if out_of_tolerance x b2 then vset buffer i b2 else Some buffer)
    (b0 :: b1 :: b2 :: rest) =
  Some ((if out_of_tolerance b0 b2 then b2 else b0)
        :: (if out_of_tolerance b1 b2 then b2 else b1) :: b2 :: rest).
Proof.
  unfold for_range. simpl.
  destruct (out_of_tolerance b0 b2); simpl;
    destruct (out_of_tolerance b1 b2); simpl; try done;
    unfold vset; rewrite bool_decide_true by (simpl length; lia); done.
Qed.

Section RepairProperties.
Context `{SeaBreeze}.

(** C8.  On the device whose serial number is "FLMS03141", a buffer
    [b0, b1, b2, ...] comes back with [b0] and [b1] each replaced by
    [b2] exactly when it is below [0.5 * b2] or above [2 * b2], and kept
    otherwise; [b2] and every later pixel are kept.  The two leading
    pixels are judged independently, so an out-of-tolerance one is
    replaced next to an in-tolerance one that stays.  For a pixel and
    band ends that are numbers, below [0.5 * b2] or above [2 * b2] is
    the same as outside the band [[0.5 * b2, 2 * b2]]. *)
Theorem repair_false_pixels_leading_pixels (d : Device) (b0 b1 b2 : float)
    (rest : list float) (silent : bool) (w : World) :
  seabreeze_get_serial_number (index d) = (0, "FLMS03141"%string) →
  repair_false_pixels d (b0 :: b1 :: b2 :: rest) silent w =
    (Done (true,
           (if ((b0 <? 0.5 * b2) || (2 * b2 <? b0))%float then b2 else b0)
           :: (if ((b1 <? 0.5 * b2) || (2 * b2 <? b1))%float then b2 else b1)
           :: b2 :: rest),
     mkWorld (trace w ++
                if silent then [GetSerialNumber (index d)]
                else [GetSerialNumber (index d); GetSerialNumber (index d);
                      CorrectionNote "FLMS03141"])
             (scans_read w)) ∧
  (∀ x, is_nan x = false →
        is_nan (0.5 * b2) = false → is_nan (2 * b2) = false →
        ((x <? 0.5 * b2) || (2 * b2 <? x))%float = negb (in_band x b2)).
Proof.
  intros Hq. split; [|intros x; apply out_of_tolerance_band].
  unfold repair_false_pixels.
  erewrite bind_Done by by apply serial_number_success.
  rewrite String.eqb_refl.
  destruct silent.
  - erewrite bind_Done by reflexivity.
    erewrite (bind_Done (lift (vget _ _))) by reflexivity.
    erewrite bind_Done by (unfold lift; rewrite repair_loop; reflexivity).
    reflexivity.
  - erewrite bind_Done.
    2:{ erewrite bind_Done by by apply serial_number_success. reflexivity. }
    erewrite (bind_Done (lift (vget _ _))) by reflexivity.
    erewrite bind_Done by (unfold lift; rewrite repair_loop; reflexivity).
    simpl. by rewrite <- !app_assoc.
Qed.

(** X1.  Any other device that answers its serial number keeps its buffer,
    and is asked for the serial number once. *)
Lemma repair_false_pixels_other_device (d : Device) (buf : list float)
    (silent : bool) (w : World) (name : string) :
  seabreeze_get_serial_number (index d) = (0, name) →
  name ≠ "FLMS03141"%string →
  repair_false_pixels d buf silent w =
    (Done (true, buf),
     mkWorld (trace w ++ [GetSerialNumber (index d)]) (scans_read w)).
Proof.
  intros Hq Hname. unfold repair_false_pixels.
  erewrite bind_Done by by apply serial_number_success.
  apply String.eqb_neq in Hname. by rewrite Hname.
Qed.

End RepairProperties.

(** One leading pixel far above the reference, one within the band. *)
Lemma repair_false_pixels_leading_pixels_witness :
  let driver := bench_driver (λ _, (0, "FLAME-S"%string))
                  (λ _, (0, "FLMS03141"%string)) (λ _ _ _, (0, [])) (λ _, 0) in
  @repair_false_pixels driver (new_Device 0) [100; 5; 4; 7]%float true fresh_world =
    (Done (true, [4; 5; 4; 7]%float), mkWorld [GetSerialNumber 0] 0).
Proof.
  intros driver.
  apply (proj1 (@repair_false_pixels_leading_pixels driver (new_Device 0)
                  100%float 5%float 4%float [7%float] true fresh_world
                  eq_refl)).
Defined.

(** A buffer of fewer than three pixels has no [buffer[2]]. *)
Example repair_false_pixels_short_buffer :
  let driver := bench_driver (λ _, (0, "FLAME-S"%string))
                  (λ _, (0, "FLMS03141"%string)) (λ _ _ _, (0, [])) (λ _, 0) in
  (@repair_false_pixels driver (new_Device 0) [100; 5]%float true fresh_world).1
    = Undefined.
Proof. reflexivity. Qed.

(** ** Acquisition *)




Section AcquisitionProperties.
Context `{SeaBreeze}.


Lemma size_buffers_zeroes (d : Device) (w : World) :
  empty_or_sized (pixels d) (formatted_spectrum d) →
  size_buffers d w =
    (Done (set_formatted_spectrum (replicate (Z.to_nat (pixels d)) 0%float)
             (set_buffer (resize (Z.to_nat (pixels d)) 0%float (buffer d)) d)),
     w).
Proof.
  intros Hf. unfold size_buffers.
  assert (Hb : (if bool_decide (Z.of_nat (length (buffer d)) ≠ pixels d)
                then set_buffer (resize (Z.to_nat (pixels d)) 0%float (buffer d)) d
                else d)
               = set_buffer (resize (Z.to_nat (pixels d)) 0%float (buffer d)) d).
  { case_bool_decide as Hlen; [done|].
    rewrite <- Hlen, Nat2Z.id, resize_all.
    by destruct d. }
  rewrite Hb. clear Hb. cbn [pixels formatted_spectrum set_buffer].
  case_bool_decide as Hlen.
  - destruct Hf as [->|Hf]; [|done]. by rewrite resize_nil.
  - rewrite <- Hlen, Nat2Z.id.
    unfold mbind, M_bind, lift. rewrite fill_range_all. done.
Qed.




End AcquisitionProperties.

(** C7.  For an empty vector, and for radius 0, [average_vector]
    returns [false] and leaves the vector as it was: no exit, no failed
    assertion, no undefined access.  Its caller [read_spectrum] drops the
    returned [bool]: with radius 0 it yields the averaged scans,
    unsmoothed. *)
Theorem average_vector_not_applicable :
  (∀ boxcar, average_vector [] boxcar = Some (false, [])) ∧
  (∀ X, average_vector X 0 = Some (false, X)) ∧
  (∀ `{SeaBreeze} d scans_to_average silent w,
     read_spectrum d scans_to_average 0 silent w =
       (d' ← averaged_scans d scans_to_average silent; mret (true, d')) w).
Proof.
  split; [done|]. split.
  - intros X. unfold average_vector. simpl. by rewrite orb_true_r.
  - intros Hdrv d scans silent w. unfold read_spectrum, mbind, M_bind.
    destruct (averaged_scans d scans silent w) as [[d'| | |] w']; try done.
    unfold average_vector. simpl. rewrite orb_true_r. simpl.
    unfold lift, mret, M_ret. by destruct d'.
Qed.


(** Outside those states [formatted_spectrum.resize(pixels, 0.0)] would
    keep the elements the vector already has.  The program never
    produces such a state: the vector is written by [read_spectrum]
    only, and [pixels] is set once, before the first spectrum is read.
    On a device put together by hand, with three pixels and a spectrum
    vector of one element, the scan loop would start from [[5, 0, 0]]
    or [[9, 0, 0]]. *)
Example read_spectrum_keeps_stale_prefix :
  let driver := constant_scan_driver "S1" [1; 1; 1]%float in
  let d1 := mkDevice 0 3 0 [] [5%float] [] [] [] [] in
  let d2 := mkDevice 0 3 0 [] [9%float] [] [] [] [] in
  spectrum_of (@read_spectrum driver d1 1 0 true fresh_world)
    = Some [6; 1; 1]%float ∧
  spectrum_of (@read_spectrum driver d2 1 0 true fresh_world)
    = Some [10; 1; 1]%float.
Proof. split; vm_compute; reflexivity. Qed.

(** ** Transmission *)

(** Two scans of ten pixels, all 1 and then all 3, average to 2; with
    background 0 and reference 4 the transmission is one half. *)
Example read_spectrum_two_scans :
  let driver := bench_driver (λ _, (0, "FLAME-S"%string)) (λ _, (0, "S1"%string))
                  (λ _ scan n, (0, replicate (Z.to_nat n)
                                     (if scan is O then 1 else 3)%float))
                  (λ _, 0) in
  let d := mkDevice 0 10 0 [] [] (replicate 10 0%float) (replicate 10 4%float)
             [] [] in
  (d' ← @averaged_scans driver d 2 true;
   '(_, d') ← calc_transmission d';
   mret (formatted_spectrum d', transmission d')) fresh_world
  = (Done (replicate 10 2%float, replicate 10 0.5%float),
     mkWorld [GetFormattedSpectrum 0; GetSerialNumber 0;
              GetFormattedSpectrum 0; GetSerialNumber 0] 2).
Proof. vm_compute. reflexivity. Qed.

(** C2.  With the spectrum, the background and the reference all of
    length [pixels], [calc_transmission] returns [true] and leaves in
    [transmission] a vector of length [pixels] whose entry [i] is
    [(spectrum[i] - background[i]) / (reference[i] - background[i])],
    the plain IEEE quotient, whatever [transmission] held before; no
    other member of the device changes.  With any of the three of
    another length an assertion fails and nothing is returned. *)
Theorem calc_transmission_spec (d : Device) (w : World) :
  (baselines_present d →
   ∃ d', calc_transmission d w = (Done (true, d'), w)
         ∧ Z.of_nat (length (transmission d')) = pixels d
         ∧ (∀ (i : nat) s b r,
              formatted_spectrum d !! i = Some s →
              background_spectrum d !! i = Some b →
              reference_spectrum d !! i = Some r →
              transmission d' !! i = Some ((s - b) / (r - b))%float)
         ∧ index d' = index d
         ∧ pixels d' = pixels d
         ∧ error d' = error d
         ∧ wavelengths d' = wavelengths d
         ∧ formatted_spectrum d' = formatted_spectrum d
         ∧ background_spectrum d' = background_spectrum d
         ∧ reference_spectrum d' = reference_spectrum d
         ∧ buffer d' = buffer d) ∧
  (¬ baselines_present d → calc_transmission d w = (AssertionFailed, w)).
Proof.
  unfold baselines_present. split.
  - intros (HS & HB & HR).
    set (f := λ pixel : Z,
           r ← vget (formatted_spectrum d) pixel;
           b ← vget (background_spectrum d) pixel;
           ref ← vget (reference_spectrum d) pixel;
           Some ((r - b) / (ref - b))%float).
    destruct (for_loop_collect f (length (formatted_spectrum d)) 0 [])
      as (T & Hrun & Hlen & HT).
    { intros j Hj. rewrite Z.add_0_l. unfold f. rewrite !vget_lookup.
      assert (is_Some (formatted_spectrum d !! j)) as [s ->]
        by (apply lookup_lt_is_Some_2; lia).
      assert (is_Some (background_spectrum d !! j)) as [b ->]
        by (apply lookup_lt_is_Some_2; lia).
      assert (is_Some (reference_spectrum d !! j)) as [r ->]
        by (apply lookup_lt_is_Some_2; lia).
      by eexists. }
    assert (Hcall : calc_transmission d w
                    = (Done (true, set_transmission T d), w)).
    { unfold calc_transmission, assert, mbind, M_bind.
      rewrite !bool_decide_true by done.
      unfold for_range. rewrite Z.sub_0_r, Nat2Z.id.
      erewrite for_loop_ext; [rewrite Hrun; reflexivity|].
      intros i acc. unfold f.
      destruct (vget (formatted_spectrum d) i); [|done].
      destruct (vget (background_spectrum d) i); [|done].
      by destruct (vget (reference_spectrum d) i). }
    exists (set_transmission T d). split; [done|].
    assert (Hmember : transmission (set_transmission T d) = T)
      by reflexivity.
    rewrite Hmember. split; [lia|]. split; [|done].
    intros i s b r Hs Hb Hr.
    assert (i < length (formatted_spectrum d))%nat by by eapply lookup_lt_Some.
    rewrite HT by done. rewrite Z.add_0_l. unfold f. rewrite !vget_lookup.
    by rewrite Hs, Hb, Hr.
  - intros Hnot. unfold calc_transmission, assert, mbind, M_bind.
    repeat case_bool_decide; try done. tauto.
Qed.

(** The scenario of the specification: spectrum 2, background 0 and
    reference 4 give transmission one half, in a device whose
    [transmission] held something else before. *)
Lemma calc_transmission_spec_witness :
  let d := mkDevice 0 2 0 [] [2; 2]%float [0; 0]%float [4; 4]%float []
             [7; 7; 7]%float in
  ∃ d', calc_transmission d fresh_world = (Done (true, d'), fresh_world)
        ∧ transmission d' = [0.5; 0.5]%float
        ∧ formatted_spectrum d' = [2; 2]%float.
Proof.
  intros d.
  destruct (proj1 (calc_transmission_spec d fresh_world))
    as (d' & Hrun & Hlen & HT & _ & _ & _ & _ & Hf & _); [by repeat split|].
  exists d'. split; [exact Hrun|]. split; [|exact Hf].
  set (T := transmission d') in *. clearbody T.
  destruct T as [|t0 [|t1 [|t2 T]]]; simpl in Hlen; try lia.
  specialize (HT 0%nat _ _ _ eq_refl eq_refl eq_refl) as H0.
  specialize (HT 1%nat _ _ _ eq_refl eq_refl eq_refl) as H1.
  simpl in H0, H1. congruence.
Defined.

(** A reference that equals the background gives an infinity or a NaN,
    handed on as it is. *)
Example calc_transmission_not_finite :
  let d := mkDevice 0 2 0 [] [1; 2]%float [2; 2]%float [2; 2]%float [] [] in
  ∃ d', calc_transmission d fresh_world = (Done (true, d'), fresh_world)
        ∧ transmission d' = [neg_infinity; nan].
Proof. eexists. split; vm_compute; reflexivity. Qed.

(** ** Integration times *)

Example split_string_examples :
  split_string "0.001:0.002" ":" = ["0.001"; "0.002"]%string ∧
  split_string "1e-3" ":" = ["1e-3"%string] ∧
  split_string "a::b:" ":" = ["a"; ""; "b"]%string ∧
  split_string ":" ":" = [""%string] ∧
  split_string "" ":" = [].
Proof. repeat split; reflexivity. Qed.

Lemma index_ge (n : nat) (s1 s2 : string) (m : nat) :
  String.index n s1 s2 = Some m → (n <= m)%nat.
Proof.
  revert n m. induction s2 as [|b s2 IH]; intros [|n] m; simpl;
    try lia; try done.
  destruct (String.index n s1 s2) as [p|] eqn:Hp; [|done].
  intros [= <-]. apply IH in Hp. lia.
Qed.

Lemma index_lt (n : nat) (s1 s2 : string) (m : nat) :
  s1 ≠ EmptyString → String.index n s1 s2 = Some m → (m < String.length s2)%nat.
Proof.
  intros Hs1. revert n m.
  induction s2 as [|b s2 IH]; intros [|n] m; cbn [String.index String.length].
  - by destruct s1.
  - done.
  - destruct (String.prefix s1 (String b s2)); [intros [= <-]; lia|].
    destruct (String.index 0 s1 s2) as [p|] eqn:Hp; [|done].
    intros [= <-]. apply IH in Hp. lia.
  - destruct (String.index n s1 s2) as [p|] eqn:Hp; [|done].
    intros [= <-]. apply IH in Hp. lia.
Qed.

Lemma find_range (s : string) (delimiter : ascii) (i : Z) :
  0 <= i →
  find s delimiter i = -1 ∨
  i <= find s delimiter i < Z.of_nat (String.length s).
Proof.
  intros Hi. unfold find.
  destruct (String.index _ _ _) as [j|] eqn:Hj; [right|by left].
  pose proof (index_ge _ _ _ _ Hj).
  assert (Hne : String delimiter EmptyString ≠ EmptyString) by done.
  pose proof (index_lt _ _ _ _ Hne Hj). lia.
Qed.

Lemma split_loop_fuel (fuel fuel' : nat) (s : string) (delimiter : ascii)
    (i : Z) (array : list string) :
  0 <= i →
  Z.of_nat (String.length s) - i < Z.of_nat fuel →
  Z.of_nat (String.length s) - i < Z.of_nat fuel' →
  split_loop fuel s delimiter i array = split_loop fuel' s delimiter i array.
Proof.
  revert fuel' i array.
  induction fuel as [|fuel IH]; intros [|fuel'] i array Hi Hf Hf'; simpl.
  - done.
  - rewrite bool_decide_false by lia. done.
  - rewrite bool_decide_false by lia. done.
  - case_bool_decide as Hlt; [|done].
    case_bool_decide as Hj; [done|].
    destruct (find_range s delimiter i Hi) as [?|[? ?]]; [done|].
    apply IH; lia.
Qed.

(** More rounds than [split_string] allows never change its result. *)
Lemma split_string_fuel (fuel : nat) (s : string) (delimiter : ascii) :
  (String.length s < fuel)%nat →
  split_loop fuel s delimiter 0 [] = split_string s delimiter.
Proof.
  intros Hfuel. unfold split_string. apply split_loop_fuel; lia.
Qed.

Lemma split_loop_prefix (fuel : nat) (s : string) (delimiter : ascii)
    (i : Z) (array : list string) :
  ∃ l, split_loop fuel s delimiter i array = array ++ l.
Proof.
  revert i array. induction fuel as [|fuel IH]; intros i array; simpl.
  - exists []. by rewrite app_nil_r.
  - case_bool_decide; [|exists []; by rewrite app_nil_r].
    case_bool_decide; [by eexists|].
    edestruct IH as [l ->]. rewrite <- app_assoc. by eexists.
Qed.

Lemma split_string_nonempty (s : string) (delimiter : ascii) :
  s ≠ EmptyString → split_string s delimiter ≠ [].
Proof.
  intros Hs. unfold split_string. simpl.
  rewrite bool_decide_true by (destruct s; [done|simpl; lia]).
  case_bool_decide; [by destruct (substr_from s 0)|].
  edestruct split_loop_prefix as [l ->]. simpl. done.
Qed.

Lemma pad_loop (c : nat) (lo : Z) (arr : list string) (idx : nat) (x : string)
    (j : nat) :
  arr !! idx = Some x →
  for_loop c lo (λ _ a, last ← a !! idx; Some (a ++ [last]))
    (arr ++ replicate j x) = Some (arr ++ replicate (j + c) x).
Proof.
  intros Hx. revert lo j. induction c as [|c IH]; intros lo j; simpl.
  - by rewrite Nat.add_0_r.
  - rewrite lookup_app_l by by eapply lookup_lt_Some.
    rewrite Hx. simpl. rewrite <- app_assoc, <- replicate_cons_app.
    change (x :: replicate j x) with (replicate (S j) x).
    rewrite (IH (lo + 1) (S j)). do 3 f_equal. lia.
Qed.

Lemma pad_str_arr_spec (str_arr : list string) (size : Z) :
  str_arr ≠ [] → size < 2 ^ 32 →
  ∃ padded, pad_str_arr str_arr size = Some padded
            ∧ (Z.to_nat size <= length padded)%nat
            ∧ ∀ i, (i < Z.to_nat size)%nat → padded !! i = value_for str_arr i.
Proof.
  intros Hne Hsize. unfold pad_str_arr, value_for.
  assert (0 < length str_arr)%nat by (destruct str_arr; [done|simpl; lia]).
  case_bool_decide as Hlt.
  - assert (is_Some (str_arr !! (length str_arr - 1)%nat)) as [x Hx]
      by (apply lookup_lt_is_Some_2; lia).
    exists (str_arr ++ replicate (Z.to_nat size - length str_arr) x).
    split; [|split].
    + unfold for_range, u32. rewrite (Z.mod_small (Z.of_nat _)) by lia.
      rewrite Z.mod_small by lia.
      replace (Z.to_nat (Z.of_nat (length str_arr) - 1))
        with (length str_arr - 1)%nat by lia.
      pose proof (pad_loop (Z.to_nat (size - Z.of_nat (length str_arr)))
                    (Z.of_nat (length str_arr)) str_arr _ x 0 Hx) as Hpad.
      simpl in Hpad. rewrite app_nil_r in Hpad. rewrite Hpad.
      do 3 f_equal. lia.
    + rewrite length_app, length_replicate. lia.
    + intros i Hi. destruct (decide (i < length str_arr)%nat).
      * rewrite lookup_app_l by done. f_equal. lia.
      * rewrite lookup_app_r by lia. rewrite lookup_replicate_2 by lia.
        rewrite <- Hx. f_equal. lia.
  - exists str_arr. split; [done|]. split; [lia|].
    intros i Hi. f_equal. lia.
Qed.

Lemma micro_seconds_spec (atof : string → float) (str_arr : list string)
    (size : Z) :
  (∀ i, (i < Z.to_nat size)%nat →
        ∃ str, str_arr !! i = Some str ∧ is_Some (micro_seconds_of atof str)) →
  ∃ times, micro_seconds atof str_arr size = Some times
           ∧ length times = Z.to_nat size
           ∧ ∀ i, (i < Z.to_nat size)%nat →
                  times !! i = str_arr !! i ≫= micro_seconds_of atof.
Proof.
  intros Hdef.
  set (f := λ i : Z, str_arr !! Z.to_nat i ≫= micro_seconds_of atof).
  destruct (for_loop_collect f (Z.to_nat size) 0 []) as (times & Hrun & Hlen & Ht).
  { intros j Hj. unfold f. rewrite Z.add_0_l, Nat2Z.id.
    destruct (Hdef j Hj) as (str & -> & Hstr). done. }
  exists times. split; [|split; [done|]].
  - unfold micro_seconds, for_range. rewrite Z.sub_0_r.
    erewrite for_loop_ext; [exact Hrun|].
    intros i acc. unfold f, micro_seconds_of.
    destruct (str_arr !! Z.to_nat i); [|done]. simpl.
    by destruct (to_unsigned _).
  - intros i Hi. rewrite Ht by done. unfold f.
    by rewrite Z.add_0_l, Nat2Z.id.
Qed.

(** C3.  [Meter::pre] splits [integration_time_str] on ':'.  Device
    [i] gets the [i]-th value, or the last value given when fewer values
    than devices were given; the value is read by [atof], multiplied by
    [1e6] and truncated to an [unsigned].  When these conversions are
    defined, [integration_times_micro_seconds] ends with exactly one
    entry per device.  With [atof] reading "0.001" and "0.002" as the
    nearest doubles, "0.001" gives [1000, 1000, 1000] and "0.001:0.002"
    gives [1000, 2000, 2000] for three devices. *)
Theorem pre_integration_times_spec (atof : string → float) :
  (∀ m : Meter,
     let str_arr := split_string (integration_time_str m) ":" in
     let size := length (devices m) in
     integration_time_str m ≠ EmptyString →
     Z.of_nat size < 2 ^ 32 →
     (∀ i str, (i < size)%nat → value_for str_arr i = Some str →
               is_Some (micro_seconds_of atof str)) →
     ∃ times,
       pre_integration_times atof m =
         Some (set_integration_times_micro_seconds times m)
       ∧ length times = size
       ∧ ∀ i, (i < size)%nat →
              ∃ str, value_for str_arr i = Some str
                     ∧ times !! i = micro_seconds_of atof str) ∧
  (atof "0.001" = 0x1.0624dd2f1a9fcp-10%float →
   ∀ m, integration_time_str m = "0.001"%string → length (devices m) = 3%nat →
        integration_times_micro_seconds <$> pre_integration_times atof m
          = Some [1000; 1000; 1000]) ∧
  (atof "0.001" = 0x1.0624dd2f1a9fcp-10%float →
   atof "0.002" = 0x1.0624dd2f1a9fcp-9%float →
   ∀ m, integration_time_str m = "0.001:0.002"%string →
        length (devices m) = 3%nat →
        integration_times_micro_seconds <$> pre_integration_times atof m
          = Some [1000; 2000; 2000]).
Proof.
  assert (Hgen : ∀ m : Meter,
     let str_arr := split_string (integration_time_str m) ":" in
     let size := length (devices m) in
     integration_time_str m ≠ EmptyString →
     Z.of_nat size < 2 ^ 32 →
     (∀ i str, (i < size)%nat → value_for str_arr i = Some str →
               is_Some (micro_seconds_of atof str)) →
     ∃ times,
       pre_integration_times atof m =
         Some (set_integration_times_micro_seconds times m)
       ∧ length times = size
       ∧ ∀ i, (i < size)%nat →
              ∃ str, value_for str_arr i = Some str
                     ∧ times !! i = micro_seconds_of atof str).
  { intros m str_arr size Hne Hsize Hconv.
    destruct (pad_str_arr_spec str_arr (Z.of_nat size)) as (padded & Hpad & Hlen & Hp).
    { by apply split_string_nonempty. }
    { done. }
    rewrite Nat2Z.id in Hlen, Hp.
    destruct (micro_seconds_spec atof padded (Z.of_nat size))
      as (times & Hrun & Htl & Ht).
    { rewrite Nat2Z.id. intros i Hi.
      assert (is_Some (padded !! i)) as [str Hstr]
        by (apply lookup_lt_is_Some_2; lia).
      exists str. split; [done|]. apply (Hconv i); [done|].
      by rewrite <- Hp. }
    rewrite Nat2Z.id in Htl, Ht.
    exists times. split; [|split; [done|]].
    - unfold pre_integration_times. fold str_arr. fold size.
      rewrite Hpad. simpl. rewrite Hrun. done.
    - intros i Hi.
      assert (is_Some (padded !! i)) as [str Hstr]
        by (apply lookup_lt_is_Some_2; lia).
      exists str. split; [by rewrite <- Hp|].
      rewrite Ht by done. by rewrite Hstr. }
  split; [exact Hgen|]. split.
  - intros H1 m Hstr Hdev.
    destruct (Hgen m) as (times & -> & Hlen & Ht).
    + by rewrite Hstr.
    + rewrite Hdev. done.
    + rewrite Hstr, Hdev. intros i str Hi.
      destruct i as [|[|[|]]]; try lia; intros Hv; vm_compute in Hv;
        injection Hv as <-; unfold micro_seconds_of; rewrite H1; by eexists.
    + rewrite Hstr, Hdev in *. simpl.
      destruct times as [|t0 [|t1 [|t2 [|]]]]; try done.
      destruct (Ht 0%nat) as (? & Hv0 & H0'); [lia|].
      destruct (Ht 1%nat) as (? & Hv1 & H1'); [lia|].
      destruct (Ht 2%nat) as (? & Hv2 & H2'); [lia|].
      vm_compute in Hv0, Hv1, Hv2.
      injection Hv0 as <-. injection Hv1 as <-. injection Hv2 as <-.
      unfold micro_seconds_of in *. rewrite H1 in *.
      simpl in H0', H1', H2'. vm_compute in H0', H1', H2'. congruence.
  - intros H1 H2 m Hstr Hdev.
    destruct (Hgen m) as (times & -> & Hlen & Ht).
    + by rewrite Hstr.
    + rewrite Hdev. done.
    + rewrite Hstr, Hdev. intros i str Hi.
      destruct i as [|[|[|]]]; try lia; intros Hv; vm_compute in Hv;
        injection Hv as <-; unfold micro_seconds_of; rewrite ?H1, ?H2;
        by eexists.
    + rewrite Hstr, Hdev in *. simpl.
      destruct times as [|t0 [|t1 [|t2 [|]]]]; try done.
      destruct (Ht 0%nat) as (? & Hv0 & H0'); [lia|].
      destruct (Ht 1%nat) as (? & Hv1 & H1'); [lia|].
      destruct (Ht 2%nat) as (? & Hv2 & H2'); [lia|].
      vm_compute in Hv0, Hv1, Hv2.
      injection Hv0 as <-. injection Hv1 as <-. injection Hv2 as <-.
      unfold micro_seconds_of in *. rewrite ?H1, ?H2 in *.
      simpl in H0', H1', H2'. vm_compute in H0', H1', H2'. congruence.
Qed.

Lemma pre_integration_times_spec_witness :
  integration_times_micro_seconds <$>
    pre_integration_times atof_decimal
      (bench_meter "0.001:0.002" [new_Device 0; new_Device 1; new_Device 2])
  = Some [1000; 2000; 2000].
Proof.
  apply (proj2 (proj2 (pre_integration_times_spec atof_decimal)));
    vm_compute; reflexivity.
Defined.

(** ** Loop pacing *)

(** C9.  The timer unit is a function of the post-scan delay alone:
    minutes when the delay is above 600, seconds when it is above 10 and
    not above 600, milliseconds otherwise.  So 0.05 s sleeps in
    milliseconds, 30 s in seconds and 700 s in minutes; 10.0 itself
    still sleeps in milliseconds and the next double in seconds; 600.0
    itself sleeps in seconds and the next double in minutes. *)
Theorem sleep_unit_selection :
  (sleep_request 0x1.999999999999ap-5).1 = milliseconds ∧
  (sleep_request 30).1 = seconds ∧
  (sleep_request 700).1 = minutes ∧
  (∀ x, (sleep_request x).1 = minutes ↔ (600 <? x)%float = true) ∧
  (∀ x, (sleep_request x).1 = seconds ↔
        (600 <? x)%float = false ∧ (10 <? x)%float = true) ∧
  (∀ x, (sleep_request x).1 = milliseconds ↔
        (600 <? x)%float = false ∧ (10 <? x)%float = false) ∧
  (sleep_request 10).1 = milliseconds ∧
  (sleep_request (next_up 10)).1 = seconds ∧
  (sleep_request (next_down 10)).1 = milliseconds ∧
  (sleep_request 600).1 = seconds ∧
  (sleep_request (next_up 600)).1 = minutes ∧
  (sleep_request (next_down 600)).1 = seconds.
Proof.
  repeat match goal with |- _ ∧ _ => split end; try reflexivity.
  all: intros x; unfold sleep_request;
    destruct (600 <? x)%float, (10 <? x)%float; simpl; split;
    try done; intros [? ?]; done.
Qed.

(** The requests of the three delays of the specification: 50
    milliseconds, 30 seconds, 11 minutes. *)
Example sleep_for_examples :
  sleep_for 0x1.999999999999ap-5 = Some (milliseconds, 50) ∧
  sleep_for 30 = Some (seconds, 30) ∧
  sleep_for 700 = Some (minutes, 11).
Proof. repeat split; vm_compute; reflexivity. Qed.

(** ** Teardown *)

Section TeardownProperties.
Context `{SeaBreeze}.

Lemma close_device_clean (device : Device) (m : Meter) (w : World) :
  closes_cleanly device →
  close_device device m w =
    (Done (set_meter_error 0 m),
     mkWorld (trace w ++ [CloseSpectrometer (index device)]) (scans_read w)).
Proof.
  intros Hc. unfold close_device, closes_cleanly in *. simpl.
  unfold mbind, M_bind, emit. simpl. rewrite Hc. reflexivity.
Qed.

Lemma close_device_error (device : Device) (m : Meter) (w : World) :
  ¬ closes_cleanly device →
  close_device device m w =
    (Exited 1,
     mkWorld (trace w ++
                [CloseSpectrometer (index device);
                 ErrorReport (seabreeze_close_spectrometer (index device))
                   (seabreeze_get_error_string
                      (seabreeze_close_spectrometer (index device)))])
             (scans_read w)).
Proof.
  intros Hc. unfold close_device, closes_cleanly in *.
  unfold mbind, M_bind, emit. simpl.
  rewrite check_for_error_failure by done. simpl. by rewrite <- app_assoc.
Qed.

Lemma close_devices_clean (ds : list Device) (m : Meter) (w : World) :
  Forall closes_cleanly ds →
  ∃ m', for_each ds close_device m w =
          (Done m',
           mkWorld (trace w ++ map (λ d, CloseSpectrometer (index d)) ds)
                   (scans_read w))
        ∧ devices m' = devices m.
Proof.
  intros Hall. revert m w.
  induction Hall as [|d ds Hd _ IH]; intros m w.
  - exists m. simpl. rewrite app_nil_r. by destruct w.
  - simpl. erewrite bind_Done by by apply close_device_clean.
    destruct (IH (set_meter_error 0 m)
                 (mkWorld (trace w ++ [CloseSpectrometer (index d)]) (scans_read w)))
      as (m' & -> & Hdev).
    exists m'. simpl. by rewrite <- app_assoc.
Qed.

Lemma close_devices_error (ds1 ds2 : list Device) (d : Device) (m : Meter)
    (w : World) :
  Forall closes_cleanly ds1 → ¬ closes_cleanly d →
  for_each (ds1 ++ d :: ds2) close_device m w =
    (Exited 1,
     mkWorld (trace w ++ map (λ d, CloseSpectrometer (index d)) ds1 ++
                [CloseSpectrometer (index d);
                 ErrorReport (seabreeze_close_spectrometer (index d))
                   (seabreeze_get_error_string
                      (seabreeze_close_spectrometer (index d)))])
             (scans_read w)).
Proof.
  intros Hall Hd. revert m w.
  induction Hall as [|d1 ds1 Hd1 _ IH]; intros m w.
  - simpl. erewrite bind_Exited by by apply close_device_error. done.
  - simpl. erewrite bind_Done by by apply close_device_clean.
    rewrite IH. simpl. by rewrite <- app_assoc.
Qed.

(** C6, as the code has it.  [post] closes the devices in discovery
    order.  When no close reports an error, every device is closed and
    [post] returns [true].  When the close of a device reports an error,
    the devices before it have been closed, the error is reported, the
    process exits with status 1 and no later device is closed. *)
Theorem post_closes_until_first_error (m : Meter) (w : World) :
  (Forall closes_cleanly (devices m) →
   ∃ m', post m w =
           (Done (true, m'),
            mkWorld (trace w ++ map (λ d, CloseSpectrometer (index d)) (devices m))
                    (scans_read w))
         ∧ devices m' = devices m) ∧
  (∀ ds1 d ds2,
     devices m = ds1 ++ d :: ds2 →
     Forall closes_cleanly ds1 → ¬ closes_cleanly d →
     post m w =
       (Exited 1,
        mkWorld (trace w ++ map (λ d, CloseSpectrometer (index d)) ds1 ++
                   [CloseSpectrometer (index d);
                    ErrorReport (seabreeze_close_spectrometer (index d))
                      (seabreeze_get_error_string
                         (seabreeze_close_spectrometer (index d)))])
                (scans_read w))).
Proof.
  split.
  - intros Hall.
    destruct (close_devices_clean (devices m) m w Hall) as (m' & Hrun & Hdev).
    exists m'. split; [|done]. unfold post. by erewrite bind_Done.
  - intros ds1 d ds2 Hds Hall Hd. unfold post. rewrite Hds.
    erewrite bind_Exited by by apply close_devices_error. done.
Qed.

End TeardownProperties.

(** C6, as the specification words it, fails: with two devices and a
    driver that answers error 5 to the close of device 0, [post] exits
    after the first close and device 1 stays open. *)
Lemma post_close_error_leaves_devices_open :
  let driver := bench_driver (λ _, (0, "FLAME"%string)) (λ _, (0, "S1"%string))
                  (λ _ _ _, (0, [])) (λ i, if bool_decide (i = 0) then 5 else 0) in
  let m := bench_meter "1e-3" [new_Device 0; new_Device 1] in
  @post driver m fresh_world =
    (Exited 1,
     mkWorld [CloseSpectrometer 0; ErrorReport 5 "seabreeze error"] 0) ∧
  ¬ @post_closes_every_device driver m fresh_world.
Proof.
  intros driver m. split; [reflexivity|].
  unfold post_closes_every_device. vm_compute. discriminate.
Qed.

Lemma post_closes_until_first_error_witness :
  let driver := bench_driver (λ _, (0, "FLAME"%string)) (λ _, (0, "S1"%string))
                  (λ _ _ _, (0, [])) (λ i, if bool_decide (i = 1) then 5 else 0) in
  let m := bench_meter "1e-3" [new_Device 0; new_Device 1; new_Device 2] in
  @post driver m fresh_world =
    (Exited 1,
     mkWorld [CloseSpectrometer 0; CloseSpectrometer 1;
              ErrorReport 5 "seabreeze error"] 0).
Proof.
  intros driver m.
  apply (proj2 (@post_closes_until_first_error driver m fresh_world)
           [new_Device 0] (new_Device 1) [new_Device 2]).
  - reflexivity.
  - repeat constructor.
  - unfold closes_cleanly. simpl. lia.
Defined.

(** * Further properties *)

(** ** Strings *)

Lemma string_app_cons (c : ascii) (s t : string) :
  (String c s +:+ t)%string = String c (s +:+ t).
Proof. reflexivity. Qed.

Lemma string_app_nil_l (t : string) : ("" +:+ t)%string = t.
Proof. reflexivity. Qed.

Lemma string_app_assoc (s1 s2 s3 : string) :
  ((s1 +:+ s2) +:+ s3 = s1 +:+ (s2 +:+ s3))%string.
Proof.
  induction s1 as [|c s1 IH]; [done|].
  rewrite !string_app_cons. by f_equal.
Qed.

Lemma string_app_nil_r (s : string) : (s +:+ "")%string = s.
Proof.
  induction s as [|c s IH]; [done|]. rewrite string_app_cons. by f_equal.
Qed.

Lemma string_length_app (s1 s2 : string) :
  String.length (s1 +:+ s2) = (String.length s1 + String.length s2)%nat.
Proof.
  induction s1 as [|c s1 IH]; [done|].
  rewrite string_app_cons. simpl. by f_equal.
Qed.

Lemma substring_app_skip (pre t : string) (m : nat) :
  String.substring (String.length pre) m (pre +:+ t) = String.substring 0 m t.
Proof.
  induction pre as [|c pre IH]; [done|]. rewrite string_app_cons. simpl. done.
Qed.

Lemma substring_prefix (a rest : string) :
  String.substring 0 (String.length a) (a +:+ rest) = a.
Proof.
  induction a as [|c a IH]; [by destruct rest|].
  rewrite string_app_cons. simpl. by f_equal.
Qed.

Lemma index_app_skip (pre t : string) (x : string) :
  String.index (String.length pre) x (pre +:+ t)
  = (λ j, String.length pre + j)%nat <$> String.index 0 x t.
Proof.
  induction pre as [|c pre IH].
  - rewrite string_app_nil_l. simpl. by destruct (String.index 0 x t).
  - rewrite string_app_cons. simpl. rewrite IH.
    by destruct (String.index 0 x t).
Qed.

Lemma span_app (delimiter : ascii) (s : string) :
  match span delimiter s with
  | (a, Some rest) => s = (a +:+ String delimiter rest)%string
  | (a, None) => s = a
  end ∧ free_of delimiter (span delimiter s).1 = true.
Proof.
  induction s as [|c s IH]; simpl; [done|].
  destruct (Ascii.eqb_spec c delimiter) as [->|Hne]; simpl; [done|].
  destruct (span delimiter s) as [a [rest|]]; simpl in *;
    destruct IH as [IH Hfree]; (split; [by rewrite IH at 1|]);
    apply andb_true_iff; (split; [|done]);
    apply negb_true_iff; by apply Ascii.eqb_neq.
Qed.

Lemma index_span (delimiter : ascii) (s : string) :
  String.index 0 (String delimiter EmptyString) s
  = match span delimiter s with
    | (a, Some _) => Some (String.length a)
    | (_, None) => None
    end.
Proof.
  induction s as [|c s IH]; [done|].
  cbn [String.index String.prefix span].
  destruct (Ascii.eqb_spec c delimiter) as [->|Hne].
  - destruct (ascii_dec delimiter delimiter); [|done]. by destruct s.
  - destruct (ascii_dec delimiter c) as [->|_]; [done|].
    rewrite IH. by destruct (span delimiter s) as [a [rest|]].
Qed.

Lemma find_app (delimiter : ascii) (pre t : string) :
  find (pre +:+ t) delimiter (Z.of_nat (String.length pre))
  = match span delimiter t with
    | (a, Some _) => Z.of_nat (String.length pre + String.length a)
    | (_, None) => -1
    end.
Proof.
  unfold find. rewrite Nat2Z.id, index_app_skip, index_span.
  by destruct (span delimiter t) as [a [rest|]].
Qed.

Lemma fields_span (delimiter : ascii) (s cur : string) :
  fields delimiter s cur
  = match span delimiter s with
    | (a, Some rest) => (cur +:+ a)%string :: fields delimiter rest EmptyString
    | (a, None) =>
        if String.eqb (cur +:+ a) EmptyString then [] else [(cur +:+ a)%string]
    end.
Proof.
  revert cur. induction s as [|c s IH]; intros cur; simpl.
  - by rewrite string_app_nil_r.
  - destruct (Ascii.eqb c delimiter); [by rewrite string_app_nil_r|].
    rewrite IH. destruct (span delimiter s) as [a [rest|]];
      by rewrite string_app_assoc, string_app_cons, string_app_nil_l.
Qed.

(** The loop of [split_string] computes the fields of the rest of the
    string. *)
Lemma split_loop_fields (fuel : nat) (delimiter : ascii) (pre t : string)
    (array : list string) :
  (String.length t < fuel)%nat →
  split_loop fuel (pre +:+ t) delimiter (Z.of_nat (String.length pre)) array
  = array ++ fields delimiter t EmptyString.
Proof.
  revert pre t array. induction fuel as [|fuel IH]; intros pre t array Hfuel;
    [lia|].
  cbn [split_loop]. rewrite string_length_app.
  destruct (String.eqb_spec t EmptyString) as [->|Hne].
  { rewrite bool_decide_false by (simpl; lia). simpl. by rewrite app_nil_r. }
  assert (0 < String.length t)%nat by (destruct t; [done|simpl; lia]).
  rewrite bool_decide_true by lia.
  rewrite find_app, fields_span.
  pose proof (span_app delimiter t) as [Happ Hfree].
  destruct (span delimiter t) as [a [rest|]] eqn:Hspan; simpl in Happ, Hfree.
  - clear Hspan. subst t. rewrite !bool_decide_false by lia.
    replace (Z.of_nat (String.length pre + String.length a)
             - Z.of_nat (String.length pre)) with (Z.of_nat (String.length a)) by lia.
    unfold substr. rewrite !Nat2Z.id, substring_app_skip, substring_prefix.
    rewrite <- (string_app_nil_l rest) at 1.
    rewrite <- string_app_cons, <- !string_app_assoc.
    replace (Z.of_nat (String.length pre + String.length a) + 1)
      with (Z.of_nat (String.length ((pre +:+ a) +:+ String delimiter "")))
      by (rewrite !string_length_app; simpl; lia).
    rewrite IH.
    + rewrite string_app_nil_l. by rewrite <- app_assoc.
    + rewrite string_length_app in Hfuel. simpl in Hfuel. lia.
  - clear Hspan. subst a. rewrite !bool_decide_true by done.
    unfold substr_from. rewrite Nat2Z.id, string_length_app.
    replace (String.length pre + String.length t - String.length pre)%nat
      with (String.length t) by lia.
    rewrite substring_app_skip.
    rewrite <- (string_app_nil_r t) at 2. rewrite substring_prefix.
    rewrite string_app_nil_l.
    destruct (String.eqb_spec t EmptyString) as [->|_]; done.
Qed.

(** [split_string] computes the fields of the string. *)
Lemma split_string_fields (s : string) (delimiter : ascii) :
  split_string s delimiter = fields delimiter s EmptyString.
Proof.
  unfold split_string.
  apply (split_loop_fields (S (String.length s)) delimiter EmptyString s []). lia.
Qed.

Lemma free_of_app (delimiter : ascii) (s t : string) :
  free_of delimiter (s +:+ t) = free_of delimiter s && free_of delimiter t.
Proof.
  induction s as [|c s IH]; [done|].
  rewrite string_app_cons. simpl. rewrite IH. by rewrite andb_assoc.
Qed.

Lemma fields_free (delimiter : ascii) (s cur : string) :
  free_of delimiter cur = true →
  Forall (λ piece, free_of delimiter piece = true) (fields delimiter s cur).
Proof.
  revert cur. induction s as [|c s IH]; intros cur Hcur; simpl.
  - destruct (String.eqb cur ""); by repeat constructor.
  - destruct (Ascii.eqb_spec c delimiter) as [->|Hne].
    + constructor; [done|]. by apply IH.
    + apply IH. rewrite free_of_app, Hcur. simpl.
      rewrite andb_true_r. apply negb_true_iff. by apply Ascii.eqb_neq.
Qed.

Lemma fields_piece (delimiter : ascii) (a rest cur : string) :
  free_of delimiter a = true →
  fields delimiter (a +:+ String delimiter rest) cur
  = (cur +:+ a)%string :: fields delimiter rest EmptyString.
Proof.
  revert cur. induction a as [|c a IH]; intros cur Ha.
  - rewrite string_app_nil_l, string_app_nil_r. simpl.
    by rewrite Ascii.eqb_refl.
  - rewrite string_app_cons. simpl in *.
    apply andb_true_iff in Ha as [Hc Ha]. apply negb_true_iff in Hc.
    rewrite Hc, IH by done.
    by rewrite string_app_assoc, string_app_cons, string_app_nil_l.
Qed.

Lemma fields_single (delimiter : ascii) (s cur : string) :
  free_of delimiter s = true →
  fields delimiter s cur
  = if String.eqb (cur +:+ s) EmptyString then [] else [(cur +:+ s)%string].
Proof.
  revert cur. induction s as [|c s IH]; intros cur Hs; simpl in *.
  - by rewrite string_app_nil_r.
  - apply andb_true_iff in Hs as [Hc Hs]. apply negb_true_iff in Hc.
    rewrite Hc, IH by done.
    by rewrite string_app_assoc, string_app_cons, string_app_nil_l.
Qed.

Lemma join_strings_from (array : list string) (delimiter acc : string) :
  foldl (λ result el, result +:+ (el +:+ delimiter))%string acc array
  = (acc +:+ join_strings array delimiter)%string.
Proof.
  unfold join_strings. revert acc.
  induction array as [|a array IH]; intros acc; simpl.
  - by rewrite string_app_nil_r.
  - rewrite IH, (IH ("" +:+ _)%string), string_app_nil_l.
    by rewrite string_app_assoc.
Qed.

Lemma join_strings_cons (a : string) (array : list string) (delimiter : string) :
  join_strings (a :: array) delimiter
  = (a +:+ delimiter +:+ join_strings array delimiter)%string.
Proof.
  unfold join_strings at 1. simpl. rewrite join_strings_from.
  by rewrite string_app_nil_l, string_app_assoc.
Qed.

Lemma string_app_eqb_nil (s : string) (c : ascii) (t : string) :
  String.eqb (s +:+ String c t) EmptyString = false.
Proof. by destruct s. Qed.

Local Ltac string_norm :=
  repeat (rewrite string_app_assoc || rewrite string_app_cons
          || rewrite string_app_nil_l || rewrite string_app_nil_r
          || rewrite string_app_eqb_nil).

Lemma join_fields (delimiter : ascii) (s cur : string) :
  join_strings (fields delimiter s cur) (String delimiter EmptyString)
  = if ends_with delimiter s then (cur +:+ s)%string
    else if String.eqb (cur +:+ s) EmptyString then EmptyString
    else (cur +:+ s +:+ String delimiter EmptyString)%string.
Proof.
  revert cur. induction s as [|c s IH]; intros cur.
  - simpl. rewrite string_app_nil_r.
    destruct (String.eqb cur ""); [done|].
    by rewrite join_strings_cons, string_app_nil_r.
  - cbn [fields]. destruct (Ascii.eqb_spec c delimiter) as [->|Hne].
    + rewrite join_strings_cons, IH.
      destruct s as [|c' s]; [simpl; rewrite Ascii.eqb_refl; by string_norm|].
      change (ends_with delimiter (String delimiter (String c' s)))
        with (ends_with delimiter (String c' s)).
      destruct (ends_with delimiter (String c' s)); by string_norm.
    + rewrite IH. apply Ascii.eqb_neq in Hne.
      destruct s as [|c' s]; [simpl; rewrite Hne; by string_norm|].
      change (ends_with delimiter (String c (String c' s)))
        with (ends_with delimiter (String c' s)).
      destruct (ends_with delimiter (String c' s)); by string_norm.
Qed.

(** ** split_string and join_strings *)

(** X2.  No piece that [split_string] returns holds the delimiter. *)
Theorem split_string_pieces_free (s : string) (delimiter : ascii) :
  Forall (λ piece, free_of delimiter piece = true) (split_string s delimiter).
Proof. rewrite split_string_fields. by apply fields_free. Qed.

(** X3.  Splitting what [join_strings] joined gives the pieces back. *)
Theorem split_join_round_trip (array : list string) (delimiter : ascii) :
  Forall (λ piece, free_of delimiter piece = true) array →
  split_string (join_strings array (String delimiter EmptyString)) delimiter
  = array.
Proof.
  intros Hfree. rewrite split_string_fields.
  induction Hfree as [|a array Ha _ IH]; [done|].
  rewrite join_strings_cons, string_app_cons, string_app_nil_l.
  rewrite fields_piece by done. by rewrite IH.
Qed.

Lemma split_join_round_trip_witness :
  split_string (join_strings ["0.001"; ""; "2e-3"]%string ":") ":"
  = ["0.001"; ""; "2e-3"]%string.
Proof.
  apply (split_join_round_trip ["0.001"; ""; "2e-3"]%string ":").
  repeat constructor.
Defined.

(** X4.  Joining what [split_string] split gives the string back, with one
    delimiter added at the end unless the string is empty or already ends
    with one. *)
Theorem join_split_round_trip (s : string) (delimiter : ascii) :
  join_strings (split_string s delimiter) (String delimiter EmptyString)
  = if ends_with delimiter s || String.eqb s EmptyString then s
    else (s +:+ String delimiter EmptyString)%string.
Proof.
  rewrite split_string_fields, join_fields, !string_app_nil_l.
  destruct (ends_with delimiter s); [done|]. simpl.
  by destruct (String.eqb_spec s EmptyString) as [->|_].
Qed.

Lemma split_string_single (s : string) (delimiter : ascii) :
  s ≠ EmptyString → free_of delimiter s = true →
  split_string s delimiter = [s].
Proof.
  intros Hne Hfree. rewrite split_string_fields, fields_single by done.
  rewrite string_app_nil_l. by destruct (String.eqb_spec s EmptyString).
Qed.

(** ** Integration times, once more *)

Lemma for_loop_collect_inv {A : Type} (f : Z → option A) (k : nat) (lo : Z)
    (acc r : list A) :
  for_loop k lo (λ i acc, x ← f i; Some (acc ++ [x])) acc = Some r →
  ∀ j, (j < k)%nat → is_Some (f (lo + Z.of_nat j)).
Proof.
  revert lo acc. induction k as [|k IH]; intros lo acc Hrun j Hj; [lia|].
  simpl in Hrun. destruct (f lo) as [x|] eqn:Hx; [|done]. simpl in Hrun.
  destruct j as [|j].
  - rewrite Z.add_0_r, Hx. done.
  - replace (lo + Z.of_nat (S j)) with (lo + 1 + Z.of_nat j) by lia.
    eapply IH; [done|lia].
Qed.

Lemma micro_seconds_inv (atof : string → float) (str_arr : list string)
    (size : Z) (times : list Z) :
  micro_seconds atof str_arr size = Some times →
  ∀ i, (i < Z.to_nat size)%nat →
       ∃ str, str_arr !! i = Some str ∧ is_Some (micro_seconds_of atof str).
Proof.
  intros Hrun i Hi. unfold micro_seconds, for_range in Hrun.
  rewrite Z.sub_0_r in Hrun.
  set (f := λ i : Z, str_arr !! Z.to_nat i ≫= micro_seconds_of atof).
  erewrite for_loop_ext in Hrun.
  - apply (for_loop_collect_inv f) with (j := i) in Hrun; [|done].
    unfold f in Hrun. rewrite Z.add_0_l, Nat2Z.id in Hrun.
    destruct (str_arr !! i) as [str|]; [|by destruct Hrun]. by exists str.
  - intros j acc. unfold f, micro_seconds_of.
    destruct (str_arr !! Z.to_nat j); [|done]. simpl.
    by destruct (to_unsigned _).
Qed.

Lemma pad_str_arr_empty (size : Z) :
  0 < size → pad_str_arr [] size = None.
Proof.
  intros Hsize. unfold pad_str_arr. rewrite bool_decide_true by (simpl; lia).
  change (u32 (Z.of_nat (length (@nil string)))) with 0.
  by apply for_range_first_undefined.
Qed.

(** X5.  The times are defined exactly when the configuration string is
    not empty and every value a device gets converts to an [unsigned]. *)
Theorem pre_integration_times_defined_iff (atof : string → float) (m : Meter) :
  (0 < length (devices m))%nat → Z.of_nat (length (devices m)) < 2 ^ 32 →
  is_Some (pre_integration_times atof m) ↔
    integration_time_str m ≠ EmptyString ∧
    ∀ i, (i < length (devices m))%nat →
         ∃ str, value_for (split_string (integration_time_str m) ":") i
                = Some str
                ∧ is_Some (micro_seconds_of atof str).
Proof.
  set (str_arr := split_string (integration_time_str m) ":").
  set (size := length (devices m)).
  intros Hpos Hsize. unfold pre_integration_times.
  fold str_arr. fold size. split.
  - intros Hdef.
    assert (Hne : integration_time_str m ≠ EmptyString).
    { intros Hempty. unfold str_arr in Hdef. rewrite Hempty in Hdef.
      change (split_string "" ":") with (@nil string) in Hdef.
      rewrite pad_str_arr_empty in Hdef by lia. by destruct Hdef. }
    split; [done|].
    destruct (pad_str_arr_spec str_arr (Z.of_nat size))
      as (padded & Hpad & Hlen & Hp); [by apply split_string_nonempty|done|].
    rewrite Nat2Z.id in Hp. rewrite Hpad in Hdef. simpl in Hdef.
    destruct (micro_seconds atof padded (Z.of_nat size)) as [times|] eqn:Hms;
      [|by destruct Hdef].
    intros i Hi.
    destruct (micro_seconds_inv atof padded _ times Hms i) as (str & Hstr & Hc);
      [lia|].
    exists str. split; [|done]. by rewrite <- Hp.
  - intros [Hne Hconv].
    destruct (pad_str_arr_spec str_arr (Z.of_nat size))
      as (padded & Hpad & Hlen & Hp); [by apply split_string_nonempty|done|].
    rewrite Nat2Z.id in Hp.
    destruct (micro_seconds_spec atof padded (Z.of_nat size))
      as (times & Hrun & _).
    { rewrite Nat2Z.id. intros i Hi. rewrite Hp by done. by apply Hconv. }
    rewrite Hpad. simpl. rewrite Hrun. done.
Qed.

Lemma pre_integration_times_defined_iff_witness :
  is_Some (pre_integration_times atof_decimal
             (bench_meter "0.5:0.25" [new_Device 0; new_Device 1; new_Device 2])).
Proof.
  apply (pre_integration_times_defined_iff atof_decimal
           (bench_meter "0.5:0.25" [new_Device 0; new_Device 1; new_Device 2]));
    [simpl; lia|simpl; lia|].
  split; [done|].
  intros [|[|[|i]]] Hi; try (simpl in Hi; lia);
    eexists; (split; [reflexivity|]); vm_compute; by eexists.
Defined.

(** X6.  A configuration string without ':' holds one value, and every
    device gets it. *)
Theorem pre_integration_times_single_value (atof : string → float) (m : Meter)
    (t : Z) :
  integration_time_str m ≠ EmptyString →
  free_of ":" (integration_time_str m) = true →
  Z.of_nat (length (devices m)) < 2 ^ 32 →
  micro_seconds_of atof (integration_time_str m) = Some t →
  integration_times_micro_seconds <$> pre_integration_times atof m
  = Some (replicate (length (devices m)) t).
Proof.
  intros Hne Hfree Hsize Ht. unfold pre_integration_times.
  rewrite split_string_single by done.
  destruct (pad_str_arr_spec [integration_time_str m]
              (Z.of_nat (length (devices m))))
    as (padded & -> & Hlen & Hp); [done..|].
  rewrite Nat2Z.id in Hp. simpl.
  destruct (micro_seconds_spec atof padded (Z.of_nat (length (devices m))))
    as (times & -> & Htl & Htimes).
  { rewrite Nat2Z.id. intros i Hi. exists (integration_time_str m).
    rewrite Hp by done. split; [by destruct i|]. by rewrite Ht. }
  rewrite Nat2Z.id in Htl, Htimes. simpl. f_equal.
  apply list_eq. intros i.
  destruct (decide (i < length (devices m))%nat) as [Hi|Hi].
  - rewrite Htimes, Hp by done. rewrite lookup_replicate_2 by done.
    unfold value_for. simpl. replace (i `min` 0)%nat with 0%nat by lia.
    simpl. done.
  - rewrite !lookup_ge_None_2; [done|rewrite length_replicate; lia|lia].
Qed.

Lemma pre_integration_times_single_value_witness :
  integration_times_micro_seconds <$>
    pre_integration_times atof_decimal
      (bench_meter "0.25" [new_Device 0; new_Device 1])
  = Some [250000; 250000].
Proof.
  apply (pre_integration_times_single_value atof_decimal
           (bench_meter "0.25" [new_Device 0; new_Device 1]) 250000);
    [done|done|simpl; lia|vm_compute; reflexivity].
Defined.

(** ** The command line *)

Lemma read_arguments_stored (stored args : list string) (argc : Z) :
  argc <= Z.of_nat (length args) →
  for_range 1 argc
    (λ i stored, arg ← args !! Z.to_nat i; Some (stored ++ [arg])) stored
  = Some (stored ++ drop 1 (take (Z.to_nat argc) args)).
Proof.
  intros Hargc. unfold for_range.
  destruct (for_loop_collect (λ i, args !! Z.to_nat i) (Z.to_nat (argc - 1)) 1
              stored) as (l & -> & Hlen & Hl).
  { intros j Hj. apply lookup_lt_is_Some_2. lia. }
  do 2 f_equal. apply list_eq. intros j.
  rewrite lookup_drop.
  destruct (decide (j < Z.to_nat (argc - 1))%nat) as [Hj|Hj].
  - rewrite Hl by done. rewrite lookup_take_lt by lia. f_equal. lia.
  - rewrite lookup_ge_None_2 by lia. symmetry. apply lookup_ge_None_2.
    rewrite length_take. lia.
Qed.

(** X7.  [read_arguments] appends the arguments after the program name and
    answers whether more than one is stored. *)
Theorem read_arguments_spec (p : Parser) (argc : Z) (args : list string) :
  argc <= Z.of_nat (length args) →
  read_arguments p argc args
  = Some (bool_decide (1 < Z.of_nat (length (argv p)) + Z.max 0 (argc - 1)),
          mkParser (argv p ++ drop 1 (take (Z.to_nat argc) args))).
Proof.
  intros Hargc. unfold read_arguments.
  rewrite read_arguments_stored by done. simpl. do 2 f_equal.
  rewrite length_app, length_drop, length_take.
  apply bool_decide_ext. lia.
Qed.

Lemma read_arguments_spec_witness :
  read_arguments (mkParser []) 2 ["moos"; "--cal"]%string
  = Some (false, mkParser ["--cal"]%string).
Proof.
  apply (read_arguments_spec (mkParser []) 2 ["moos"; "--cal"]%string).
  simpl. lia.
Defined.

Lemma new_Parser_stored (argc : Z) (args : list string) :
  argc <= Z.of_nat (length args) →
  new_Parser argc args = Some (mkParser (drop 1 (take (Z.to_nat argc) args))).
Proof.
  intros Hargc. unfold new_Parser, read_arguments.
  by rewrite read_arguments_stored.
Qed.

(** X8.  [program_name] of a parser built from the command line is the
    first argument after the program's name, and reads an empty vector
    when there is none. *)
Theorem program_name_spec (argc : Z) (args : list string) :
  argc <= Z.of_nat (length args) →
  new_Parser argc args ≫= program_name
  = if bool_decide (2 <= argc) then args !! 1%nat else None.
Proof.
  intros Hargc. rewrite new_Parser_stored by done. simpl.
  unfold program_name. simpl. rewrite lookup_drop. simpl.
  case_bool_decide.
  - apply lookup_take_lt. lia.
  - apply lookup_ge_None_2. rewrite length_take. lia.
Qed.

Lemma program_name_spec_witness :
  new_Parser 3 ["moos"; "--it"; "5"]%string ≫= program_name = Some "--it"%string.
Proof.
  apply (program_name_spec 3 ["moos"; "--it"; "5"]%string). simpl. lia.
Defined.

Lemma search_spec (opt : string) (l : list string) (i0 : Z) :
  match search opt l i0 with
  | Some i =>
      ∃ k : nat, i = i0 + Z.of_nat k ∧ l !! k = Some opt
                 ∧ ∀ j, (j < k)%nat → l !! j ≠ Some opt
  | None => opt ∉ l
  end.
Proof.
  revert i0. induction l as [|arg l IH]; intros i0; simpl.
  - apply not_elem_of_nil.
  - destruct (String.eqb_spec arg opt) as [->|Hne].
    + exists 0%nat. split; [lia|]. split; [done|]. intros j Hj. lia.
    + specialize (IH (i0 + 1)). destruct (search opt l (i0 + 1)) as [i|].
      * destruct IH as (k & -> & Hk & Hfirst). exists (S k).
        split; [lia|]. split; [done|].
        intros [|j] Hj; simpl; [congruence|]. apply Hfirst. lia.
      * rewrite elem_of_cons. intros [->|Hin]; done.
Qed.

Lemma search_None (opt : string) (l : list string) (i0 : Z) :
  search opt l i0 = None ↔ opt ∉ l.
Proof.
  pose proof (search_spec opt l i0) as Hs.
  destruct (search opt l i0) as [i|]; [|done].
  destruct Hs as (k & _ & Hk & _). split; [done|].
  intros Hnot. destruct Hnot. by eapply list_elem_of_lookup_2.
Qed.

Lemma get_index_range (p : Parser) (opt alternative_option : string) :
  get_index p opt alternative_option = -1
  ∨ ∃ i : nat, get_index p opt alternative_option = Z.of_nat i
               ∧ (i < length (argv p))%nat.
Proof.
  unfold get_index.
  pose proof (search_spec opt (argv p) 0) as Ho.
  pose proof (search_spec alternative_option (argv p) 0) as Ha.
  destruct (search opt (argv p) 0) as [i|].
  - destruct Ho as (k & -> & Hk & _). right. exists k.
    split; [lia|]. by eapply lookup_lt_Some.
  - destruct (search alternative_option (argv p) 0) as [i|]; [|by left].
    destruct Ha as (k & -> & Hk & _). right. exists k.
    split; [lia|]. by eapply lookup_lt_Some.
Qed.

(** The primary spelling wins wherever the alternative stands. *)
Lemma get_index_at (p : Parser) (opt alternative_option : string)
    (before after : list string) :
  argv p = before ++ opt :: after → opt ∉ before →
  get_index p opt alternative_option = Z.of_nat (length before).
Proof.
  intros Hargv Hfirst. unfold get_index.
  pose proof (search_spec opt (argv p) 0) as Ho.
  destruct (search opt (argv p) 0) as [i|].
  - destruct Ho as (k & -> & Hk & Hmin).
    destruct (Nat.lt_trichotomy k (length before)) as [Hlt|[->|Hgt]]; [|lia|].
    + rewrite Hargv, lookup_app_l in Hk by done.
      destruct Hfirst. by eapply list_elem_of_lookup_2.
    + destruct (Hmin (length before) Hgt).
      rewrite Hargv. by rewrite list_lookup_middle.
  - destruct Ho. rewrite Hargv. apply elem_of_app. right.
    apply list_elem_of_here.
Qed.

Lemma get_index_missing (p : Parser) (opt alternative_option : string) :
  opt ∉ argv p → alternative_option ∉ argv p →
  get_index p opt alternative_option = -1.
Proof.
  intros Ho Ha. unfold get_index.
  apply (search_None _ _ 0) in Ho. apply (search_None _ _ 0) in Ha.
  by rewrite Ho, Ha.
Qed.

(** X9.  [get_index] answers [-1] exactly when neither spelling of the
    option is among the arguments. *)
Theorem get_index_not_found (p : Parser) (opt alternative_option : string) :
  (get_index p opt alternative_option = -1)
  ↔ (opt ∉ argv p) ∧ (alternative_option ∉ argv p).
Proof.
  unfold get_index.
  pose proof (search_spec opt (argv p) 0) as Ho.
  pose proof (search_spec alternative_option (argv p) 0) as Ha.
  destruct (search opt (argv p) 0) as [i|].
  - destruct Ho as (k & -> & Hk & _). split; [lia|].
    intros [Hnot _]. destruct Hnot. by eapply list_elem_of_lookup_2.
  - destruct (search alternative_option (argv p) 0) as [i|].
    + destruct Ha as (k & -> & Hk & _). split; [lia|].
      intros [_ Hnot]. destruct Hnot. by eapply list_elem_of_lookup_2.
    + done.
Qed.

(** X10.  When a spelling is present, [get_index] is the first position of
    the primary spelling if that one occurs at all, and the first
    position of the alternative otherwise. *)
Theorem get_index_first_match (p : Parser) (opt alternative_option : string) :
  opt ∈ argv p ∨ alternative_option ∈ argv p →
  ∃ i : nat,
    get_index p opt alternative_option = Z.of_nat i ∧
    let found := if bool_decide (opt ∈ argv p) then opt
                 else alternative_option in
    argv p !! i = Some found ∧ ∀ j, (j < i)%nat → argv p !! j ≠ Some found.
Proof.
  intros Hin. unfold get_index.
  pose proof (search_spec opt (argv p) 0) as Ho.
  pose proof (search_spec alternative_option (argv p) 0) as Ha.
  destruct (search opt (argv p) 0) as [i|].
  - destruct Ho as (k & -> & Hk & Hfirst). exists k. split; [lia|].
    rewrite bool_decide_true by (by eapply list_elem_of_lookup_2). done.
  - rewrite bool_decide_false by done.
    destruct (search alternative_option (argv p) 0) as [i|].
    + destruct Ha as (k & -> & Hk & Hfirst). exists k. split; [lia|]. done.
    + by destruct Hin.
Qed.

Lemma get_index_first_match_witness :
  ∃ i : nat,
    get_index (mkParser ["--iterations"; "3"; "--it"; "5"]%string)
      "--it" "--iterations" = Z.of_nat i ∧
    let found := if bool_decide ("--it"%string ∈
                      ["--iterations"; "3"; "--it"; "5"]%string)
                 then "--it"%string else "--iterations"%string in
    ["--iterations"; "3"; "--it"; "5"]%string !! i = Some found
    ∧ ∀ j, (j < i)%nat →
           ["--iterations"; "3"; "--it"; "5"]%string !! j ≠ Some found.
Proof.
  apply (get_index_first_match
           (mkParser ["--iterations"; "3"; "--it"; "5"]%string)
           "--it" "--iterations").
  left. simpl. by apply (list_elem_of_lookup_2 _ 2%nat).
Defined.

Lemma dashes_prefix (next_token : string) :
  Ascii.eqb (char_at next_token 0) "-" && Ascii.eqb (char_at next_token 1) "-"
  = starts_with_dashes next_token.
Proof.
  destruct next_token as [|c [|c' s]]; unfold char_at; simpl; [done| |done].
  by rewrite andb_false_r.
Qed.

Lemma get_value_total (p : Parser) (opt alternative_option : string) :
  get_value p opt alternative_option
  = Some (value_of p opt alternative_option).
Proof.
  unfold value_of, get_value, is_option.
  destruct (get_index_range p opt alternative_option) as [->|(i & -> & Hi)];
    [done|].
  rewrite bool_decide_true by lia. simpl.
  case_bool_decide as Hlast; [done|].
  assert (is_Some (argv p !! Z.to_nat (Z.of_nat i + 1))) as [next_token ->]
    by (apply lookup_lt_is_Some_2; lia).
  simpl. by destruct (_ && _).
Qed.

Lemma value_of_found (p : Parser) (opt alternative_option value : string)
    (before after : list string) :
  argv p = before ++ opt :: value :: after →
  opt ∉ before →
  starts_with_dashes value = false →
  value_of p opt alternative_option = value.
Proof.
  intros Hargv Hfirst Hvalue.
  unfold value_of, get_value, is_option.
  rewrite (get_index_at p opt alternative_option before (value :: after))
    by done.
  rewrite bool_decide_true by lia. simpl.
  rewrite bool_decide_false by (rewrite Hargv, length_app; simpl; lia).
  replace (Z.to_nat (Z.of_nat (length before) + 1)) with (S (length before))
    by lia.
  rewrite Hargv.
  rewrite (lookup_app_r before) by lia.
  replace (S (length before) - length before)%nat with 1%nat by lia. simpl.
  by rewrite dashes_prefix, Hvalue.
Qed.

Lemma value_of_missing (p : Parser) (opt alternative_option : string) :
  opt ∉ argv p → alternative_option ∉ argv p →
  value_of p opt alternative_option = EmptyString.
Proof.
  intros Ho Ha. unfold value_of, get_value, is_option.
  by rewrite get_index_missing.
Qed.

(** X11.  [get_value] never reads outside the stored arguments, and a value
    it returns is the argument that follows the option and does not
    begin with two dashes. *)
Theorem get_value_spec (p : Parser) (opt alternative_option : string) :
  ∃ value, get_value p opt alternative_option = Some value ∧
    (value = EmptyString ∨
     ∃ i : nat, get_index p opt alternative_option = Z.of_nat i
                ∧ argv p !! S i = Some value
                ∧ starts_with_dashes value = false).
Proof.
  unfold get_value, is_option.
  destruct (get_index_range p opt alternative_option) as [->|(i & -> & Hi)].
  - exists EmptyString. by split; [|left].
  - rewrite bool_decide_true by lia. simpl.
    case_bool_decide as Hlast; [exists EmptyString; by split; [|left]|].
    replace (Z.to_nat (Z.of_nat i + 1)) with (S i) by lia.
    assert (is_Some (argv p !! S i)) as [next_token Hnext]
      by (apply lookup_lt_is_Some_2; lia).
    rewrite Hnext. simpl. rewrite dashes_prefix.
    destruct (starts_with_dashes next_token) eqn:Hdashes.
    + exists EmptyString. by split; [|left].
    + exists next_token. split; [done|right]. by exists i.
Qed.

(** X12.  An option followed by a value has that value, whatever precedes
    the first occurrence of the primary spelling (the alternative
    spelling included). *)
Theorem get_value_of_option (p : Parser) (opt alternative_option value : string)
    (before after : list string) :
  argv p = before ++ opt :: value :: after →
  opt ∉ before →
  starts_with_dashes value = false →
  get_value p opt alternative_option = Some value.
Proof.
  intros Hargv Hfirst Hvalue. rewrite get_value_total. f_equal.
  by eapply value_of_found.
Qed.

Lemma get_value_of_option_witness :
  get_value (mkParser ["--iterations"; "3"; "--it"; "-5"; "--cal"]%string)
    "--it" "--iterations" = Some "-5"%string.
Proof.
  apply (get_value_of_option
           (mkParser ["--iterations"; "3"; "--it"; "-5"; "--cal"]%string)
           "--it" "--iterations" "-5"
           ["--iterations"; "3"]%string ["--cal"]%string).
  - reflexivity.
  - intros Hin. apply elem_of_cons in Hin as [Heq|Hin]; [discriminate|].
    apply elem_of_cons in Hin as [Heq|Hin]; [discriminate|].
    by apply not_elem_of_nil in Hin.
  - reflexivity.
Defined.

(** X13.  Without the option, and with the option as the last argument or
    followed by another option, the value is the empty string. *)
Theorem get_value_empty (p : Parser) (opt alternative_option : string) :
  ((opt ∉ argv p) ∧ (alternative_option ∉ argv p))
  ∨ (∃ i : nat, get_index p opt alternative_option = Z.of_nat i
                ∧ match argv p !! S i with
                  | Some next_token => starts_with_dashes next_token = true
                  | None => True
                  end) →
  get_value p opt alternative_option = Some EmptyString.
Proof.
  intros [[Ho Ha]|(i & Hi & Hnext)].
  - rewrite get_value_total. f_equal. by apply value_of_missing.
  - unfold get_value, is_option.
    rewrite Hi. rewrite bool_decide_true by lia. simpl.
    case_bool_decide as Hlast; [done|].
    replace (Z.to_nat (Z.of_nat i + 1)) with (S i) by lia.
    destruct (argv p !! S i) as [next_token|] eqn:Hlook.
    + simpl. by rewrite dashes_prefix, Hnext.
    + apply lookup_ge_None_1 in Hlook.
      destruct (get_index_range p opt alternative_option)
        as [Hnone|(i' & Hi' & Hlt)]; lia.
Qed.

Lemma get_value_empty_witness :
  get_value (mkParser ["--id"; "--cal"]%string) "--id" "--identifier"
  = Some EmptyString.
Proof.
  apply (get_value_empty (mkParser ["--id"; "--cal"]%string)
           "--id" "--identifier").
  right. exists 0%nat. split; reflexivity.
Defined.

(** ** Options *)

Section Options.
Variable atoi atol : string → Z.
Variable atof : string → float.

(** [initialize] with the parser and the option values spelled out. *)
Lemma initialize_unfold (m : Meter) (names : Names) (argc : Z)
    (args : list string) :
  argc <= Z.of_nat (length args) →
  let parser := mkParser (stored_arguments argc args) in
  let value := value_of parser in
  let given s := negb (String.eqb s "") in
  initialize atoi atol atof m names argc args
  = Some (true,
      mkMeter
        (let iterations :=
           if given (value "--it" "--iterations")
           then u64 (atoi (value "--it" "--iterations")) else 0 in
         if bool_decide (iterations < 1) then LONG_MAX else iterations)
        (if given (value "--int" "--integration_time")
         then value "--int" "--integration_time" else "1e-3")
        (integration_times_micro_seconds m)
        (if given (value "--avg" "--scans_to_average")
         then u32 (atol (value "--avg" "--scans_to_average")) else 1)
        (if given (value "--post" "--post_scans_sleep")
         then atof (value "--post" "--post_scans_sleep") else 1%float)
        (if given (value "--box" "--boxcar_width")
         then atoi (value "--box" "--boxcar_width") else 1)
        (if given (value "--trig" "--trigger_mode")
         then atoi (value "--trig" "--trigger_mode") else 0)
        (is_option parser "--cal" "--calibrate")
        (is_option parser "--s" "--silent")
        (meter_error m) (devices m),
      mkNames
        (if given (value "--path" "") then
           if negb (Ascii.eqb (back (value "--path" "")) "/")
              && negb (Ascii.eqb (back (value "--path" "")) "\")
           then (value "--path" "" +:+ "/")%string else value "--path" ""
         else "./")
        (if given (value "--id" "--identifier")
         then value "--id" "--identifier" else "default")).
Proof.
  intros Hargc parser value given. unfold initialize.
  rewrite new_Parser_stored by done. fold (stored_arguments argc args).
  fold parser. simpl. rewrite !get_value_total. simpl. reflexivity.
Qed.

Lemma get_app_length (s t : string) (c : ascii) :
  String.get (String.length s) (s +:+ String c t) = Some c.
Proof.
  induction s as [|c' s IH]; [done|].
  rewrite string_app_cons. simpl. apply IH.
Qed.

Lemma back_app (s : string) (c : ascii) :
  back (s +:+ String c EmptyString) = c.
Proof.
  unfold back, char_at. rewrite string_length_app. simpl.
  replace (String.length s + 1 - 1)%nat with (String.length s) by lia.
  by rewrite get_app_length.
Qed.

(** X14.  Whatever the command line, [initialize] returns, and it leaves at
    least one iteration, an integration-time string and an identifier
    that are not empty, and a path that ends in a separator. *)
Theorem initialize_invariants (m : Meter) (names : Names) (argc : Z)
    (args : list string) :
  argc <= Z.of_nat (length args) →
  ∃ m' names',
    initialize atoi atol atof m names argc args = Some (true, m', names')
    ∧ 1 <= iterations m' < 2 ^ 64
    ∧ 0 <= scans_to_average m' < 2 ^ 32
    ∧ integration_time_str m' ≠ EmptyString
    ∧ identifier names' ≠ EmptyString
    ∧ (back (path names') = "/"%char ∨ back (path names') = "\"%char)
    ∧ integration_times_micro_seconds m' = integration_times_micro_seconds m
    ∧ devices m' = devices m.
Proof.
  intros Hargc. eexists _, _. split; [by apply initialize_unfold|].
  cbv zeta. cbn [iterations scans_to_average integration_time_str identifier
                 path integration_times_micro_seconds devices].
  repeat match goal with |- _ ∧ _ => split end; try done.
  - case_bool_decide; unfold LONG_MAX; lia.
  - destruct (negb _); unfold LONG_MAX, u64 in *.
    + case_bool_decide; [lia|].
      pose proof (Z.mod_pos_bound
        (atoi (value_of (mkParser (stored_arguments argc args))
                 "--it" "--iterations")) (2 ^ 64)). lia.
    + rewrite bool_decide_true; lia.
  - destruct (negb _); [|lia]. unfold u32.
    pose proof (Z.mod_pos_bound
      (atol (value_of (mkParser (stored_arguments argc args))
               "--avg" "--scans_to_average")) (2 ^ 32)). lia.
  - destruct (negb _); [|lia]. unfold u32.
    pose proof (Z.mod_pos_bound
      (atol (value_of (mkParser (stored_arguments argc args))
               "--avg" "--scans_to_average")) (2 ^ 32)). lia.
  - destruct (String.eqb_spec
      (value_of (mkParser (stored_arguments argc args))
         "--int" "--integration_time") "") as [->|Hne]; simpl; done.
  - destruct (String.eqb_spec
      (value_of (mkParser (stored_arguments argc args))
         "--id" "--identifier") "") as [->|Hne]; simpl; done.
  - set (s := value_of (mkParser (stored_arguments argc args)) "--path" "").
    destruct (String.eqb s ""); simpl; [by left|].
    destruct (Ascii.eqb_spec (back s) "/") as [Hs|Hs]; simpl; [by left|].
    destruct (Ascii.eqb_spec (back s) "\") as [Hb|Hb]; simpl; [by right|].
    left. apply back_app.
Qed.

Lemma option_absent (stored : list string) (opt : string) :
  (∀ a, a ∈ stored → starts_with_dashes a = false ∧ a ≠ EmptyString) →
  starts_with_dashes opt = true ∨ opt = EmptyString →
  opt ∉ stored.
Proof.
  intros Hplain Hopt Hin. destruct (Hplain opt Hin) as [Hdashes Hne].
  destruct Hopt as [Hopt| ->]; [congruence|done].
Qed.

(** X15.  A command line without options (no argument that begins with two
    dashes or is empty) leaves the defaults of [initialize], which are
    not the member initialisers. *)
Theorem initialize_defaults (m : Meter) (names : Names) (argc : Z)
    (args : list string) :
  argc <= Z.of_nat (length args) →
  (∀ a, a ∈ stored_arguments argc args →
        starts_with_dashes a = false ∧ a ≠ EmptyString) →
  initialize atoi atol atof m names argc args
  = Some (true,
          mkMeter LONG_MAX "1e-3" (integration_times_micro_seconds m) 1 1 1 0
            false false (meter_error m) (devices m),
          mkNames "./" "default").
Proof.
  intros Hargc Hplain. rewrite initialize_unfold by done. cbv zeta.
  unfold is_option.
  rewrite !get_index_missing, !value_of_missing
    by (apply option_absent; [done|]; first [by left|by right]).
  reflexivity.
Qed.

(** X16.  The value of [--it] is stored as an [unsigned long]: a positive
    count is kept, zero stands for [LONG_MAX], and a negative count
    wraps around to a count above [LONG_MAX]. *)
Theorem initialize_iterations (m : Meter) (names : Names) (argc : Z)
    (args before after : list string) (value : string) :
  argc <= Z.of_nat (length args) →
  stored_arguments argc args = before ++ "--it"%string :: value :: after →
  "--it"%string ∉ before →
  value ≠ EmptyString →
  starts_with_dashes value = false →
  - 2 ^ 31 <= atoi value < 2 ^ 31 →
  ∃ m' names',
    initialize atoi atol atof m names argc args = Some (true, m', names')
    ∧ iterations m' =
        if bool_decide (0 < atoi value) then atoi value
        else if bool_decide (atoi value = 0) then LONG_MAX
        else 2 ^ 64 + atoi value.
Proof.
  intros Hargc Hstored Hfirst Hne Hvalue Hint.
  eexists _, _. split; [by apply initialize_unfold|].
  cbv zeta. cbn [iterations].
  rewrite (value_of_found _ "--it" "--iterations" value before after)
    by done.
  destruct (String.eqb_spec value "") as [|_]; [done|]. simpl.
  unfold u64, LONG_MAX.
  assert (atoi value mod 2 ^ 64
          = if bool_decide (0 <= atoi value) then atoi value
            else atoi value + 2 ^ 64) as ->.
  { case_bool_decide; [apply Z.mod_small; lia|].
    rewrite <- (Z.mod_add _ 1) by lia. apply Z.mod_small. lia. }
  repeat case_bool_decide; lia.
Qed.

End Options.

Lemma initialize_invariants_witness :
  ∃ m' names',
    initialize (λ _, -3) (λ _, 2) atof_decimal Meter_members Names_members 5
      ["moos"; "--it"; "-3"; "--path"; "out"]%string = Some (true, m', names')
    ∧ 1 <= iterations m' < 2 ^ 64
    ∧ 0 <= scans_to_average m' < 2 ^ 32
    ∧ integration_time_str m' ≠ EmptyString
    ∧ identifier names' ≠ EmptyString
    ∧ (back (path names') = "/"%char ∨ back (path names') = "\"%char)
    ∧ integration_times_micro_seconds m'
      = integration_times_micro_seconds Meter_members
    ∧ devices m' = devices Meter_members.
Proof.
  apply (initialize_invariants (λ _, -3) (λ _, 2) atof_decimal
           Meter_members Names_members 5
           ["moos"; "--it"; "-3"; "--path"; "out"]%string).
  simpl. lia.
Defined.

Lemma initialize_defaults_witness :
  initialize (λ _, 0) (λ _, 0) atof_decimal Meter_members Names_members 2
    ["moos"; "now"]%string
  = Some (true,
          mkMeter LONG_MAX "1e-3" [] 1 1 1 0 false false 0 [],
          mkNames "./" "default").
Proof.
  apply (initialize_defaults (λ _, 0) (λ _, 0) atof_decimal Meter_members
           Names_members 2 ["moos"; "now"]%string).
  - simpl. lia.
  - intros a Hin. apply list_elem_of_singleton in Hin as ->. done.
Defined.

Lemma initialize_iterations_witness :
  ∃ m' names',
    initialize (λ _, -3) (λ _, 0) atof_decimal Meter_members Names_members 3
      ["moos"; "--it"; "-3"]%string = Some (true, m', names')
    ∧ iterations m' = 18446744073709551613.
Proof.
  apply (initialize_iterations (λ _, -3) (λ _, 0) atof_decimal Meter_members
           Names_members 3 ["moos"; "--it"; "-3"]%string [] [] "-3").
  - simpl. lia.
  - reflexivity.
  - apply not_elem_of_nil.
  - done.
  - reflexivity.
  - lia.
Defined.

Section ConstructorProperties.
Variable atoi atol : string → Z.
Variable atof : string → float.

(** X17.  The constructor leaves the world as it is and never reads
    outside the argument vector: with one argument (the program name) it
    exits with status -1, otherwise it returns a meter that has at
    least one iteration and an integration-time string. *)
Theorem new_Meter_spec (argc : Z) (args : list string) (w : World) :
  argc <= Z.of_nat (length args) →
  match new_Meter atoi atol atof argc args w with
  | (Done (m, names), w') =>
      w' = w ∧ argc ≠ 1 ∧ 1 <= iterations m
      ∧ integration_time_str m ≠ EmptyString ∧ devices m = []
  | (Exited status, w') => w' = w ∧ argc = 1 ∧ status = -1
  | _ => False
  end.
Proof.
  intros Hargc. unfold new_Meter. case_bool_decide as Hone; [done|].
  rewrite initialize_unfold by done. cbv zeta.
  unfold mbind, M_bind, lift. cbv beta iota.
  unfold mret, M_ret. cbn [iterations integration_time_str devices].
  split; [done|]. split; [done|]. split; [|split; [|done]].
  - case_bool_decide; unfold LONG_MAX; lia.
  - by destruct (String.eqb_spec
      (value_of (mkParser (stored_arguments argc args))
         "--int" "--integration_time") "") as [->|Hne].
Qed.

End ConstructorProperties.

Lemma new_Meter_spec_witness :
  match new_Meter (λ _, 0) (λ _, 0) atof_decimal 1 ["moos"]%string fresh_world
  with
  | (Done (m, names), w') =>
      w' = fresh_world ∧ 1 ≠ 1 ∧ 1 <= iterations m
      ∧ integration_time_str m ≠ EmptyString ∧ devices m = []
  | (Exited status, w') => w' = fresh_world ∧ 1 = 1 ∧ status = -1
  | _ => False
  end.
Proof.
  apply (new_Meter_spec (λ _, 0) (λ _, 0) atof_decimal 1 ["moos"]%string
           fresh_world).
  simpl. lia.
Defined.

(** ** Setting the devices up *)

Lemma bind_Undefined {A B : Type} (m : M A) (f : A → M B) (w w' : World) :
  m w = (Undefined, w') → (m ≫= f) w = (Undefined, w').
Proof. intros Hm. unfold mbind, M_bind. by rewrite Hm. Qed.

Section SetupProperties.
Context `{SeaBreeze} `{SeaBreezeSetup}.

Lemma open_devices_spec (k : nat) (j : Z) (m : Meter) :
  0 <= j → j + Z.of_nat k < 2 ^ 32 →
  ∃ count,
    0 <= count <= Z.of_nat k
    ∧ devices (open_devices k j m)
      = devices m ++ (new_Device <$> seqZ j count)
    ∧ (∀ i, j <= i < j + count → seabreeze_open_spectrometer i = 0)
    ∧ (count < Z.of_nat k → seabreeze_open_spectrometer (j + count) ≠ 0).
Proof.
  revert j m. induction k as [|k IH]; intros j m Hj Hk.
  - exists 0. simpl. rewrite app_nil_r. repeat split; intros; lia.
  - simpl. case_bool_decide as Herr.
    + exists 0. simpl. rewrite app_nil_r. rewrite Z.add_0_r.
      repeat split; try lia; try done.
    + simpl in Herr.
      replace (u32 (j + 1)) with (j + 1)
        by (unfold u32; rewrite Z.mod_small; lia).
      destruct (IH (j + 1)
                  (set_devices (devices m ++ [new_Device j])
                     (set_meter_error (seabreeze_open_spectrometer j) m)))
        as (count & Hcount & Hdev & Hok & Hstop); [lia|lia|].
      exists (count + 1). split; [lia|]. split; [|split].
      * rewrite Hdev. simpl. rewrite <- app_assoc. f_equal.
        rewrite (seqZ_cons j (count + 1)) by lia. rewrite fmap_cons.
        replace (Z.succ j) with (j + 1) by lia.
        by replace (Z.pred (count + 1)) with count by lia.
      * intros i Hi. destruct (decide (i = j)) as [->|Hne]; [done|].
        apply Hok. lia.
      * intros Hlt. replace (j + (count + 1)) with (j + 1 + count) by lia.
        apply Hstop. lia.
Qed.

(** X18.  The devices [pre] finds are numbered from 0 without a gap: they
    are the indices before the first one the driver refuses to open, at
    most 16 of them; when index 0 is refused the program exits with
    status 1. *)
Theorem pre_devices_spec (m : Meter) (w : World) :
  match pre_devices m w with
  | (Done m', w') =>
      w' = w ∧
      ∃ count, 1 <= count <= MAX_DEVICES
        ∧ devices m' = new_Device <$> seqZ 0 count
        ∧ (∀ j, 0 <= j < count → seabreeze_open_spectrometer j = 0)
        ∧ (count < MAX_DEVICES → seabreeze_open_spectrometer count ≠ 0)
  | (Exited status, w') =>
      w' = w ∧ status = 1 ∧ seabreeze_open_spectrometer 0 ≠ 0
  | _ => False
  end.
Proof.
  unfold pre_devices.
  destruct (open_devices_spec (Z.to_nat MAX_DEVICES) 0 (set_devices [] m))
    as (count & Hcount & Hdev & Hok & Hstop); [done|unfold MAX_DEVICES; lia|].
  rewrite Z2Nat.id in Hcount, Hstop by (unfold MAX_DEVICES; lia).
  change (devices (set_devices [] m)) with (@nil Device) in Hdev.
  rewrite app_nil_l in Hdev. rewrite Z.add_0_l in Hstop.
  set (m' := open_devices (Z.to_nat MAX_DEVICES) 0 (set_devices [] m)) in *.
  destruct (devices m') as [|d ds] eqn:Hds; simpl.
  - assert (count = 0) as ->.
    { destruct (decide (count = 0)) as [|Hne]; [done|].
      rewrite (seqZ_cons 0 count) in Hdev by lia. done. }
    split; [done|]. split; [done|]. apply Hstop. unfold MAX_DEVICES. lia.
  - split; [done|]. exists count. rewrite Hds. split; [|split; [done|]].
    + split; [|lia]. destruct (decide (count = 0)) as [->|]; [done|lia].
    + split; [|done]. intros j Hj. apply Hok. lia.
Qed.

(** X19.  A device without a pending error gets the pixel count the
    driver reports, except the device with serial number FLMN01736,
    which gets 128 whatever is reported; nothing else of the device
    changes. *)
Theorem read_pixels_spec (d : Device) (silent : bool) (w : World)
    (reported : Z) (sn : string) :
  index d ≠ UINT_MAX →
  error d = 0 →
  seabreeze_get_formatted_spectrum_length (index d) = (0, reported) →
  seabreeze_get_serial_number (index d) = (0, sn) →
  ∃ d' w',
    read_pixels d silent w = (Done (true, d'), w')
    ∧ pixels d' = (if String.eqb sn "FLMN01736" then 128 else u32 reported)
    ∧ set_pixels 0 d' = set_pixels 0 d
    ∧ scans_read w' = scans_read w.
Proof.
  intros Hindex Herror Hreported Hsn. unfold read_pixels.
  rewrite Hreported, Herror.
  erewrite bind_Done
    by (unfold assert; by rewrite bool_decide_true).
  erewrite bind_Done by apply check_for_error_success.
  erewrite bind_Done by apply check_for_error_success.
  erewrite bind_Done by (by apply serial_number_success).
  assert (Hsame : set_pixels 0 (set_pixels (u32 reported) (set_error 0 d))
                  = set_pixels 0 d).
  { destruct d. simpl in Herror. by subst. }
  destruct (String.eqb sn "FLMN01736").
  - destruct silent.
    + eexists _, _. split; [reflexivity|]. done.
    + erewrite bind_Done.
      2: { erewrite bind_Done by (by apply serial_number_success).
           reflexivity. }
      eexists _, _. split; [reflexivity|]. done.
  - eexists _, _. split; [reflexivity|]. done.
Qed.

(** X20.  With a pending error code in the device, or an error of the
    length query, [read_pixels] reports the error and exits with status
    1 before it asks for the serial number. *)
Theorem read_pixels_error (d : Device) (silent : bool) (w : World) :
  index d ≠ UINT_MAX →
  error d ≠ 0 ∨ (seabreeze_get_formatted_spectrum_length (index d)).1 ≠ 0 →
  ∃ e,
    e ≠ 0 ∧
    read_pixels d silent w
    = (Exited 1,
       mkWorld (trace w ++ [ErrorReport e (seabreeze_get_error_string e)])
         (scans_read w)).
Proof.
  intros Hindex Herr. unfold read_pixels.
  erewrite bind_Done
    by (unfold assert; by rewrite bool_decide_true).
  destruct (decide (error d = 0)) as [Hzero|Hpending].
  - destruct Herr as [|Herr]; [done|]. rewrite Hzero.
    erewrite bind_Done by apply check_for_error_success.
    destruct (seabreeze_get_formatted_spectrum_length (index d))
      as [e reported]. simpl in Herr.
    exists e. split; [done|].
    erewrite bind_Exited by (by apply check_for_error_failure). done.
  - exists (error d). split; [done|].
    erewrite bind_Exited by (by apply check_for_error_failure). done.
Qed.

Lemma write_prefix_length (vals X : list float) :
  length (write_prefix vals X) = length X.
Proof.
  unfold write_prefix. rewrite length_app, length_take, length_drop. lia.
Qed.

Lemma read_wavelengths_run (d : Device) (w : World) (vals : list float) :
  seabreeze_get_wavelengths (index d) (pixels d) = (0, vals) →
  read_wavelengths d w
  = (Done (true,
           set_wavelengths
             (write_prefix vals
                (resize (Z.to_nat (pixels d)) 0%float (wavelengths d)))
             (set_error 0 d)), w).
Proof.
  intros Hvals. unfold read_wavelengths.
  set (d1 := if bool_decide (Z.of_nat (length (wavelengths d)) ≠ pixels d)
             then set_wavelengths
                    (resize (Z.to_nat (pixels d)) 0%float (wavelengths d)) d
             else d).
  assert (Hd1 : d1 = set_wavelengths
                       (resize (Z.to_nat (pixels d)) 0%float (wavelengths d)) d).
  { unfold d1. case_bool_decide as Hlen; [done|].
    rewrite resize_all_alt by lia. by destruct d. }
  rewrite Hd1. cbn [index pixels set_wavelengths]. rewrite Hvals.
  erewrite bind_Done by apply check_for_error_success. reflexivity.
Qed.

(** X21.  [read_wavelengths] leaves a wavelength vector of [pixels]
    elements that begins with the values the driver delivered; where the
    driver delivered fewer, the vector keeps what it held (zero where it
    was extended). *)
Theorem read_wavelengths_spec (d : Device) (w : World) (vals : list float) :
  0 <= pixels d →
  seabreeze_get_wavelengths (index d) (pixels d) = (0, vals) →
  ∃ d',
    read_wavelengths d w = (Done (true, d'), w)
    ∧ Z.of_nat (length (wavelengths d')) = pixels d
    ∧ (∀ i, (i < length vals)%nat → Z.of_nat i < pixels d →
            wavelengths d' !! i = vals !! i)
    ∧ (∀ i, (length vals <= i)%nat →
            wavelengths d' !! i
            = resize (Z.to_nat (pixels d)) 0%float (wavelengths d) !! i)
    ∧ set_wavelengths [] d' = set_wavelengths [] (set_error 0 d).
Proof.
  intros Hpixels Hvals. eexists. split; [by apply read_wavelengths_run|].
  cbn [wavelengths set_wavelengths].
  split; [|split; [|split; [|done]]].
  - rewrite write_prefix_length, length_resize. lia.
  - intros i Hi Hpix. unfold write_prefix. rewrite length_resize.
    rewrite lookup_app_l by (rewrite length_take; lia).
    apply lookup_take_lt. lia.
  - intros i Hi. unfold write_prefix. rewrite length_resize.
    destruct (decide (i < Z.to_nat (pixels d))%nat) as [Hlt|Hge].
    + rewrite lookup_app_r by (rewrite length_take; lia).
      rewrite length_take, lookup_drop. f_equal. lia.
    + rewrite !lookup_ge_None_2; [done|rewrite length_resize; lia|].
      rewrite length_app, length_take, length_drop, length_resize. lia.
Qed.

Lemma for_each_ref_Done {A : Type} (P : A → A → Prop) (l : list A)
    (body : A → M A) (w : World) :
  (∀ a, a ∈ l → ∃ a', body a w = (Done a', w) ∧ P a a') →
  ∃ l', for_each_ref l body w = (Done l', w) ∧ Forall2 P l l'.
Proof.
  induction l as [|a l IH]; intros Hbody.
  - exists []. split; [done|]. constructor.
  - destruct (Hbody a) as (a' & Ha & HP); [apply list_elem_of_here|].
    destruct IH as (l' & Hl & HPl).
    { intros b Hb. apply Hbody. by apply list_elem_of_further. }
    exists (a' :: l'). split; [|by constructor].
    simpl. erewrite bind_Done by done. erewrite bind_Done by done. done.
Qed.

Lemma wavelengths_note_defined (device : Device) :
  is_Some (wavelengths_note device) ↔ (2 <= length (wavelengths device))%nat.
Proof.
  unfold wavelengths_note.
  destruct (wavelengths device) as [|first [|second X]] eqn:HX; simpl.
  - split; [by intros []|lia].
  - split; [by intros []|lia].
  - split; [lia|]. intros _.
    destruct (last (second :: X)) as [final|] eqn:Hlast; simpl.
    + destruct X; simpl in *; by rewrite ?Hlast.
    + apply last_None in Hlast. done.
Qed.

(** X22.  [pre] prints the second wavelength of every device: with a
    device of fewer than two pixels at the head of the list it reads
    outside that device's wavelength vector. *)
Theorem pre_wavelengths_short_device (m : Meter) (w : World) (d : Device)
    (ds : list Device) :
  devices m = d :: ds →
  0 <= pixels d < 2 →
  (seabreeze_get_wavelengths (index d) (pixels d)).1 = 0 →
  pre_wavelengths m w = (Undefined, w).
Proof.
  intros Hdevices Hpixels Hdriver. unfold pre_wavelengths.
  rewrite Hdevices. simpl.
  destruct (seabreeze_get_wavelengths (index d) (pixels d)) as [e vals] eqn:Hq.
  simpl in Hdriver. subst e.
  pose proof (read_wavelengths_run d w vals Hq) as Hread.
  set (d' := set_wavelengths
               (write_prefix vals
                  (resize (Z.to_nat (pixels d)) 0%float (wavelengths d)))
               (set_error 0 d)) in Hread.
  assert (Hlen : Z.of_nat (length (wavelengths d')) = pixels d).
  { unfold d'. cbn [wavelengths set_wavelengths].
    rewrite write_prefix_length, length_resize. lia. }
  assert (Hnote : wavelengths_note d' = None).
  { destruct (wavelengths_note d') eqn:Hnote; [|done].
    assert (2 <= length (wavelengths d'))%nat
      by (apply wavelengths_note_defined; by rewrite Hnote).
    lia. }
  apply bind_Undefined, bind_Undefined.
  unfold wavelengths_of. erewrite bind_Done by exact Hread.
  apply bind_Undefined. unfold lift. by rewrite Hnote.
Qed.

(** X23.  When every device has at least two pixels and the driver
    delivers, the wavelength loop of [pre] returns, and every device
    then has a wavelength vector of [pixels] elements and is otherwise
    as before (its error code cleared). *)
Theorem pre_wavelengths_spec (m : Meter) (w : World) :
  (∀ d, d ∈ devices m →
        2 <= pixels d
        ∧ (seabreeze_get_wavelengths (index d) (pixels d)).1 = 0) →
  ∃ m',
    pre_wavelengths m w = (Done m', w)
    ∧ Forall2
        (λ d d', Z.of_nat (length (wavelengths d')) = pixels d
                 ∧ set_wavelengths [] d' = set_wavelengths [] (set_error 0 d))
        (devices m) (devices m')
    ∧ set_devices [] m' = set_devices [] m.
Proof.
  intros Hdevices. unfold pre_wavelengths.
  destruct (for_each_ref_Done
              (λ d d', Z.of_nat (length (wavelengths d')) = pixels d
                       ∧ set_wavelengths [] d'
                         = set_wavelengths [] (set_error 0 d))
              (devices m) wavelengths_of w) as (ds & Hrun & Hds).
  { intros d Hd. destruct (Hdevices d Hd) as [Hpixels Hdriver].
    destruct (seabreeze_get_wavelengths (index d) (pixels d))
      as [e vals] eqn:Hq. simpl in Hdriver. subst e.
    pose proof (read_wavelengths_run d w vals Hq) as Hread.
    set (d' := set_wavelengths
                 (write_prefix vals
                    (resize (Z.to_nat (pixels d)) 0%float (wavelengths d)))
                 (set_error 0 d)) in Hread.
    assert (Hlen : Z.of_nat (length (wavelengths d')) = pixels d).
    { unfold d'. cbn [wavelengths set_wavelengths].
      rewrite write_prefix_length, length_resize. lia. }
    destruct (proj2 (wavelengths_note_defined d')) as [note Hnote]; [lia|].
    exists d'. split; [|done].
    unfold wavelengths_of. erewrite bind_Done by exact Hread.
    cbv beta iota.
    erewrite bind_Done by (unfold lift; by rewrite Hnote). done. }
  eexists. split; [by erewrite bind_Done by exact Hrun|]. done.
Qed.

Lemma configure_loop (ds : list Device) (i : Z) (m : Meter) (w : World) :
  0 <= i → i + Z.of_nat (length ds) < 2 ^ 32 →
  (Z.to_nat i + length ds <= length (integration_times_micro_seconds m))%nat →
  match for_each ds configure_device (i, m) w with
  | (Done (i', m'), w') =>
      w' = w
      ∧ set_meter_error 0 m' = set_meter_error 0 m
      ∧ ∀ k device, ds !! k = Some device →
          ∃ t_us,
            integration_times_micro_seconds m !! (Z.to_nat i + k)%nat
            = Some t_us
            ∧ seabreeze_set_integration_time_microsec (index device) t_us = 0
            ∧ seabreeze_set_trigger_mode (index device) (trigger_mode m) = 0
  | (Exited status, _) => status = 1
  | _ => False
  end.
Proof.
  revert i m. induction ds as [|device ds IH]; intros i m Hi Hbound Htimes.
  - simpl. split; [done|]. split; [done|]. intros k device Hk. done.
  - simpl in Hbound, Htimes. cbn [for_each].
    assert (is_Some (integration_times_micro_seconds m !! Z.to_nat i))
      as [t_us Ht] by (apply lookup_lt_is_Some_2; lia).
    set (e1 := seabreeze_set_integration_time_microsec (index device) t_us).
    set (e2 := seabreeze_set_trigger_mode (index device) (trigger_mode m)).
    assert (Hstep : configure_device device (i, m) w
              = if bool_decide (e1 ≠ 0) then
                  (Exited 1,
                   mkWorld (trace w
                            ++ [ErrorReport e1 (seabreeze_get_error_string e1)])
                     (scans_read w))
                else if bool_decide (e2 ≠ 0) then
                  (Exited 1,
                   mkWorld (trace w
                            ++ [ErrorReport e2 (seabreeze_get_error_string e2)])
                     (scans_read w))
                else (Done (i + 1, set_meter_error e2 m), w)).
    { unfold configure_device.
      erewrite bind_Done by (unfold lift; by rewrite Ht).
      cbn [meter_error set_meter_error trigger_mode]. fold e1 e2.
      replace (u32 (i + 1)) with (i + 1)
        by (unfold u32; rewrite Z.mod_small; lia).
      case_bool_decide as H1.
      - by erewrite bind_Exited by (by apply check_for_error_failure).
      - rewrite H1.
        erewrite bind_Done by apply check_for_error_success.
        case_bool_decide as H2.
        + by erewrite bind_Exited by (by apply check_for_error_failure).
        + rewrite H2.
          erewrite bind_Done by apply check_for_error_success. done. }
    unfold mbind, M_bind. rewrite Hstep.
    case_bool_decide as H1; [done|]. case_bool_decide as H2; [done|].
    specialize (IH (i + 1) (set_meter_error e2 m) ltac:(lia) ltac:(lia)).
    cbn [integration_times_micro_seconds set_meter_error trigger_mode] in IH.
    specialize (IH ltac:(lia)).
    destruct (for_each ds configure_device (i + 1, set_meter_error e2 m) w)
      as [[[i' m']|status| |] w']; try done.
    destruct IH as (-> & Hm & Hds). split; [done|]. split; [done|].
    intros [|k] device' Hk; simpl in Hk.
    + injection Hk as <-. exists t_us. rewrite Nat.add_0_r. done.
    + destruct (Hds k device' Hk) as (t & Ht' & Hok). exists t.
      split; [|done]. rewrite <- Ht'. f_equal. lia.
Qed.

(** X24.  Once [pre] has computed the integration times, its configuration
    loop finds a time for every device: it never reads outside the
    vector of times.  It returns only when the driver accepted, for
    every device, that device's own time and the trigger mode; any
    refusal ends the program with status 1. *)
Theorem pre_configure_after_times (atof : string → float) (m m' : Meter)
    (w : World) :
  pre_integration_times atof m = Some m' →
  Z.of_nat (length (devices m)) < 2 ^ 32 →
  match pre_configure m' w with
  | (Done m'', w') =>
      w' = w
      ∧ set_meter_error 0 m'' = set_meter_error 0 m'
      ∧ ∀ k device, devices m !! k = Some device →
          ∃ t_us,
            integration_times_micro_seconds m' !! k = Some t_us
            ∧ seabreeze_set_integration_time_microsec (index device) t_us = 0
            ∧ seabreeze_set_trigger_mode (index device) (trigger_mode m) = 0
  | (Exited status, _) => status = 1
  | _ => False
  end.
Proof.
  intros Hpre Hsize. unfold pre_integration_times in Hpre.
  destruct (pad_str_arr _ _) as [str_arr|]; [|done]. simpl in Hpre.
  destruct (micro_seconds atof str_arr _) as [times|] eqn:Hms; [|done].
  injection Hpre as <-.
  assert (Hlen : length times = length (devices m)).
  { pose proof (micro_seconds_inv atof str_arr _ times Hms) as Hinv.
    destruct (micro_seconds_spec atof str_arr _ Hinv) as (times' & Hrun & Hl & _).
    rewrite Hms in Hrun. injection Hrun as <-. by rewrite Hl, Nat2Z.id. }
  unfold pre_configure.
  pose proof (configure_loop (devices m) 0
                (set_integration_times_micro_seconds times m) w) as Hloop.
  cbn [devices integration_times_micro_seconds trigger_mode
       set_integration_times_micro_seconds] in *.
  specialize (Hloop ltac:(lia) ltac:(lia) ltac:(simpl; lia)).
  unfold mbind at 1, M_bind.
  destruct (for_each (devices m) configure_device
              (0, set_integration_times_micro_seconds times m) w)
    as [[[i' m'']|status| |] w']; try done.
Qed.

End SetupProperties.

(** ** The smoother: length, definedness and the two ends *)

Lemma for_loop_undefined_at {St : Type} (n : nat) (lo : Z)
    (body : Z → St → option St) (s : St) (k : nat) :
  (k < n)%nat → (∀ s, body (lo + Z.of_nat k) s = None) →
  for_loop n lo body s = None.
Proof.
  revert lo s k. induction n as [|n IH]; intros lo s k Hk Hbody; [lia|].
  simpl. destruct k as [|k].
  - rewrite Z.add_0_r in Hbody. by rewrite Hbody.
  - destruct (body lo s) as [s'|]; [|done]. simpl.
    apply (IH _ _ k); [lia|]. intros s0.
    replace (lo + 1 + Z.of_nat k) with (lo + Z.of_nat (S k)) by lia. done.
Qed.

Lemma for_range_undefined_at {St : Type} (lo hi k : Z)
    (body : Z → St → option St) (s : St) :
  lo <= k < hi → (∀ s, body k s = None) → for_range lo hi body s = None.
Proof.
  intros Hk Hbody. unfold for_range.
  apply (for_loop_undefined_at _ _ _ _ (Z.to_nat (k - lo))); [lia|].
  intros s0. replace (lo + Z.of_nat (Z.to_nat (k - lo))) with k by lia. done.
Qed.

Lemma for_loop_ext_range {St : Type} (n : nat) (lo : Z)
    (body body' : Z → St → option St) (s : St) :
  (∀ j s, (j < n)%nat → body (lo + Z.of_nat j) s = body' (lo + Z.of_nat j) s) →
  for_loop n lo body s = for_loop n lo body' s.
Proof.
  revert lo s. induction n as [|n IH]; intros lo s Hext; [done|].
  simpl. pose proof (Hext 0%nat s ltac:(lia)) as Hfirst.
  rewrite Z.add_0_r in Hfirst. rewrite Hfirst.
  destruct (body' lo s) as [s'|]; [|done]. simpl.
  apply IH. intros j s0 Hj.
  replace (lo + 1 + Z.of_nat j) with (lo + Z.of_nat (S j)) by lia.
  apply Hext. lia.
Qed.

Lemma sum_range_ext (lo hi : Z) (X Y : list float) :
  (∀ k, lo <= k < hi → vget X k = vget Y k) →
  sum_range lo hi X = sum_range lo hi Y.
Proof.
  intros Hext. unfold sum_range, for_range.
  apply for_loop_ext_range. intros j s Hj. rewrite Hext by lia. done.
Qed.

Lemma fill_range_length (lo hi : Z) (v : float) (X X' : list float) :
  fill_range lo hi v X = Some X' → length X' = length X.
Proof.
  intros Hrun.
  apply (for_range_preserves (λ X', length X' = length X) _ _ _ _ _ Hrun);
    [done|].
  intros i X0 X1 Hi Hlen Hset. apply vset_spec in Hset as [_ ->].
  by rewrite length_insert.
Qed.

Lemma fill_range_writes (lo hi : Z) (v : float) (X X' : list float) (k : nat) :
  fill_range lo hi v X = Some X' → lo <= Z.of_nat k < hi → X' !! k = Some v.
Proof.
  intros Hrun Hk.
  assert (HP : ∀ j, lo <= Z.of_nat j < hi → X' !! j = Some v);
    [|by apply HP].
  apply (for_range_preserves_at
           (λ i S, ∀ j, lo <= Z.of_nat j < i → S !! j = Some v)
           _ _ _ _ _ Hrun); [lia| |].
  - intros j Hj. lia.
  - intros i S S1 Hi HS Hset j Hj. apply vset_spec in Hset as [Hi' ->].
    destruct (decide (Z.of_nat j = i)) as [<-|Hne].
    + rewrite Nat2Z.id. apply list_lookup_insert_eq. lia.
    + rewrite list_lookup_insert_ne by lia. apply HS. lia.
Qed.

Lemma center_pass_length (boxcar : Z) (X C : list float) :
  center_pass boxcar X = Some C → length C = length X.
Proof.
  intros Hrun. unfold center_pass in Hrun.
  apply (for_range_preserves (λ C, length C = length X) _ _ _ _ _ Hrun);
    [done|].
  intros i X0 X1 Hi Hlen Hstep.
  apply center_step_writes in Hstep as (v & _ & Hset).
  apply vset_spec in Hset as [_ ->]. by rewrite length_insert.
Qed.

Lemma left_end_length (boxcar : Z) (X X' : list float) :
  left_end boxcar X = Some X' → length X' = length X.
Proof.
  unfold left_end. destruct (sum_range 0 boxcar X); [|done]. simpl.
  apply fill_range_length.
Qed.

Lemma right_end_length (boxcar : Z) (X X' : list float) :
  right_end boxcar X = Some X' → length X' = length X.
Proof.
  unfold right_end. destruct (sum_range _ _ X); [|done]. simpl.
  apply fill_range_length.
Qed.

Lemma smoothed_length (X X' : list float) (boxcar : Z) (applied : bool) :
  (X ← center_pass boxcar X; X ← left_end boxcar X; X ← right_end boxcar X;
   Some (true, X)) = Some (applied, X') →
  length X' = length X.
Proof.
  destruct (center_pass boxcar X) as [C|] eqn:HC; [|done]. simpl.
  destruct (left_end boxcar C) as [X2|] eqn:H2; [|done]. simpl.
  destruct (right_end boxcar X2) as [X3|] eqn:H3; [|done]. simpl.
  intros [= _ <-].
  apply center_pass_length in HC. apply left_end_length in H2.
  apply right_end_length in H3. congruence.
Qed.

(** X25.  Whatever the radius, a call of [average_vector] that stays
    inside the vector leaves it with the length it had. *)
Theorem average_vector_keeps_length (X X' : list float) (boxcar : Z)
    (applied : bool) :
  average_vector X boxcar = Some (applied, X') → length X' = length X.
Proof.
  unfold average_vector. destruct (empty X || (boxcar <=? 0)).
  - by intros [= _ <-].
  - apply smoothed_length.
Qed.

Lemma average_vector_keeps_length_witness :
  length [1.5; 2.25; 2.25]%float = length [1; 2; 3]%float.
Proof.
  apply (average_vector_keeps_length [1; 2; 3]%float [1.5; 2.25; 2.25]%float
           2 true).
  vm_compute. reflexivity.
Defined.

(** X26.  For a vector that is not empty and a radius that is not zero,
    [average_vector] stays inside the vector exactly when the radius is
    at most the length. *)
Theorem average_vector_defined_iff (X : list float) (boxcar : Z) :
  X ≠ [] → 0 < boxcar < 2 ^ 32 → Z.of_nat (length X) < 2 ^ 32 →
  is_Some (average_vector X boxcar) ↔ boxcar <= Z.of_nat (length X).
Proof.
  intros HX Hb Hsize. split.
  - intros Hdef.
    destruct (Z.le_gt_cases boxcar (Z.of_nat (length X))) as [|Hshort];
      [done|exfalso].
    rewrite average_vector_applicable in Hdef by (done || lia).
    destruct (center_pass boxcar X) as [C|] eqn:HC; [|by destruct Hdef].
    apply center_pass_length in HC. simpl in Hdef.
    assert (Hleft : left_end boxcar C = None).
    { unfold left_end, sum_range.
      rewrite (for_range_undefined_at 0 boxcar (Z.of_nat (length X)));
        [done|lia|].
      intros s. unfold vget. rewrite bool_decide_true by lia.
      rewrite lookup_ge_None_2 by lia. done. }
    rewrite Hleft in Hdef. by destruct Hdef.
  - intros Hle.
    destruct (average_vector_defined X boxcar) as (X' & -> & _); [lia|done|].
    done.
Qed.

Lemma average_vector_defined_iff_witness :
  is_Some (average_vector [1; 2; 3]%float 3) ↔ 3 <= Z.of_nat 3.
Proof.
  apply (average_vector_defined_iff [1; 2; 3]%float 3); [done|lia|simpl; lia].
Defined.

(** X27.  When the vector holds at least two radii, its first [r] elements
    end as the mean of the first [r] input samples and its last [r]
    elements as the mean of the last [r] input samples, each summed
    from left to right starting at zero. *)
Theorem average_vector_ends (X X' : list float) (r : nat) :
  (0 < r)%nat → (2 * r <= length X)%nat → Z.of_nat (length X) < 2 ^ 32 →
  average_vector X (Z.of_nat r) = Some (true, X') →
  (∀ i, (i < r)%nat →
        X' !! i = (λ sum, (sum / of_unsigned (Z.of_nat r))%float)
                    <$> sum_range 0 (Z.of_nat r) X) ∧
  (∀ i, (length X - r <= i < length X)%nat →
        X' !! i = (λ sum, (sum / of_unsigned (Z.of_nat r))%float)
                    <$> sum_range (Z.of_nat (length X - r))
                          (Z.of_nat (length X)) X).
Proof.
  intros Hr Hn Hsize.
  rewrite average_vector_applicable by (destruct X; [simpl in *|]; done || lia).
  destruct (center_pass (Z.of_nat r) X) as [C|] eqn:HC; [|done]. simpl.
  destruct (left_end (Z.of_nat r) C) as [X2|] eqn:H2; [|done]. simpl.
  destruct (right_end (Z.of_nat r) X2) as [X3|] eqn:H3; [|done]. simpl.
  intros [= <-].
  destruct (center_pass_spec X C r) as (HlC & Hout & _); [lia..|done|].
  pose proof (left_end_length _ _ _ H2) as Hl2.
  assert (Hwrap : u32 (u32 (Z.of_nat (length X2)) - Z.of_nat r)
                  = Z.of_nat (length X - r)).
  { rewrite Hl2, HlC. unfold u32. rewrite (Z.mod_small (Z.of_nat _)) by lia.
    rewrite Z.mod_small; lia. }
  assert (Hsum_left : sum_range 0 (Z.of_nat r) C = sum_range 0 (Z.of_nat r) X).
  { apply sum_range_ext. intros k Hk.
    rewrite <- (Z2Nat.id k) by lia. rewrite !vget_lookup. apply Hout. lia. }
  assert (Hsum_right :
    sum_range (Z.of_nat (length X - r)) (Z.of_nat (length X)) X2
    = sum_range (Z.of_nat (length X - r)) (Z.of_nat (length X)) X).
  { apply sum_range_ext. intros k Hk.
    rewrite <- (Z2Nat.id k) by lia. rewrite !vget_lookup.
    rewrite (left_end_frame _ _ _ _ H2) by lia. apply Hout. lia. }
  split.
  - intros i Hi.
    rewrite (right_end_frame _ _ _ _ H3) by (rewrite Hwrap; lia).
    unfold left_end in H2. rewrite Hsum_left in H2.
    destruct (sum_range 0 (Z.of_nat r) X) as [sum|]; [|done]. simpl in *.
    eapply fill_range_writes; [done|lia].
  - intros i Hi. unfold right_end in H3. rewrite Hwrap in H3.
    replace (u32 (Z.of_nat (length X2))) with (Z.of_nat (length X)) in H3
      by (rewrite Hl2, HlC; unfold u32; rewrite Z.mod_small; lia).
    rewrite Hsum_right in H3.
    destruct (sum_range _ _ X) as [sum|]; [|done]. simpl in *.
    eapply fill_range_writes; [done|lia].
Qed.

Lemma average_vector_ends_witness :
  (∀ i, (i < 2)%nat →
        [1.5; 1.5; 3; 4; 5; 6.5; 6.5]%float !! i
        = (λ sum, (sum / of_unsigned (Z.of_nat 2))%float)
            <$> sum_range 0 (Z.of_nat 2) [1; 2; 3; 4; 5; 6; 7]%float) ∧
  (∀ i, (length [1; 2; 3; 4; 5; 6; 7]%float - 2 <= i
         < length [1; 2; 3; 4; 5; 6; 7]%float)%nat →
        [1.5; 1.5; 3; 4; 5; 6.5; 6.5]%float !! i
        = (λ sum, (sum / of_unsigned (Z.of_nat 2))%float)
            <$> sum_range (Z.of_nat (length [1; 2; 3; 4; 5; 6; 7]%float - 2))
                  (Z.of_nat (length [1; 2; 3; 4; 5; 6; 7]%float))
                  [1; 2; 3; 4; 5; 6; 7]%float).
Proof.
  apply (average_vector_ends [1; 2; 3; 4; 5; 6; 7]%float
           [1.5; 1.5; 3; 4; 5; 6.5; 6.5]%float 2);
    [lia|simpl; lia|simpl; lia|vm_compute; reflexivity].
Defined.

(** ** Acquisition: the shape of the device after [read_spectrum] *)

Lemma bind_Done_inv {A B : Type} (m : M A) (f : A → M B) (w w' : World) (b : B) :
  (m ≫= f) w = (Done b, w') →
  ∃ a w1, m w = (Done a, w1) ∧ f a w1 = (Done b, w').
Proof.
  unfold mbind, M_bind. destruct (m w) as [[a|status| |] w1]; try done.
  intros Hf. by exists a, w1.
Qed.

Lemma lift_Done_inv {A : Type} (o : option A) (w w' : World) (a : A) :
  lift o w = (Done a, w') → o = Some a ∧ w' = w.
Proof. unfold lift. destruct o; intros [= <- <-]; done. Qed.

Lemma frame_fields (d d0 : Device) :
  frame d = frame d0 → index d = index d0 ∧ pixels d = pixels d0.
Proof.
  intros Hframe. split.
  - by apply (f_equal index) in Hframe.
  - by apply (f_equal pixels) in Hframe.
Qed.

Lemma accumulate_length (n : Z) (buffer acc acc' : list float) :
  accumulate n buffer acc = Some acc' → length acc' = length acc.
Proof.
  intros Hrun. unfold accumulate in Hrun.
  apply (for_range_preserves (λ Y, length Y = length acc) _ _ _ _ _ Hrun);
    [done|].
  intros i X0 X1 Hi Hlen Hstep.
  destruct (vget X0 i); [|done]. simpl in Hstep.
  destruct (vget buffer i); [|done]. simpl in Hstep.
  apply vset_spec in Hstep as [_ ->]. by rewrite length_insert.
Qed.

Lemma scale_length (n : Z) (factor : float) (acc acc' : list float) :
  scale n factor acc = Some acc' → length acc' = length acc.
Proof.
  intros Hrun. unfold scale in Hrun.
  apply (for_range_preserves (λ Y, length Y = length acc) _ _ _ _ _ Hrun);
    [done|].
  intros i X0 X1 Hi Hlen Hstep.
  destruct (vget X0 i); [|done]. simpl in Hstep.
  apply vset_spec in Hstep as [_ ->]. by rewrite length_insert.
Qed.

Section ShapeProperties.
Context `{SeaBreeze}.

Lemma repair_false_pixels_length (d : Device) (buf buf' : list float)
    (silent ok : bool) (w w' : World) :
  repair_false_pixels d buf silent w = (Done (ok, buf'), w') →
  length buf' = length buf.
Proof.
  unfold repair_false_pixels. intros Hrun.
  apply bind_Done_inv in Hrun as (sn & w1 & _ & Hrun).
  destruct (String.eqb sn "FLMS03141"); [|by injection Hrun as _ <- _].
  apply bind_Done_inv in Hrun as (u & w2 & _ & Hrun).
  apply bind_Done_inv in Hrun as (corr & w3 & _ & Hrun).
  apply bind_Done_inv in Hrun as (repaired & w4 & Hloop & Hrun).
  injection Hrun as _ <- _.
  apply lift_Done_inv in Hloop as [Hloop _].
  apply (for_range_preserves (λ Y, length Y = length buf) _ _ _ _ _ Hloop);
    [done|].
  intros i X0 X1 Hi Hlen Hstep.
  destruct (vget X0 i); [|done]. simpl in Hstep.
  destruct (out_of_tolerance _ _).
  - apply vset_spec in Hstep as [_ ->]. by rewrite length_insert.
  - by injection Hstep as <-.
Qed.

Lemma size_buffers_sized (d d1 : Device) (w w1 : World) :
  0 <= pixels d →
  size_buffers d w = (Done d1, w1) → sized_like d d1 ∧ w1 = w.
Proof.
  intros Hpixels. unfold size_buffers.
  set (d0 := if bool_decide (Z.of_nat (length (buffer d)) ≠ pixels d)
             then set_buffer (resize (Z.to_nat (pixels d)) 0%float (buffer d)) d
             else d).
  assert (Hd0 : Z.of_nat (length (buffer d0)) = pixels d
                ∧ set_buffer [] d0 = set_buffer [] d).
  { unfold d0. case_bool_decide as Hlen; [|done].
    split; [|done]. cbn [buffer set_buffer]. rewrite length_resize. lia. }
  destruct Hd0 as [Hbuffer Hrest].
  assert (Hp : pixels d0 = pixels d) by (by apply (f_equal pixels) in Hrest).
  assert (Hf : formatted_spectrum d0 = formatted_spectrum d)
    by (by apply (f_equal formatted_spectrum) in Hrest).
  rewrite Hp, Hf.
  assert (Hframe : ∀ X, frame (set_formatted_spectrum X d0) = frame d).
  { intros X. unfold frame.
    apply (f_equal (λ d, set_error 0 (set_formatted_spectrum [] d))) in Hrest.
    done. }
  case_bool_decide as Hlen.
  - intros [= <- <-]. split; [|done]. split; [|split; [done|apply Hframe]].
    cbn [formatted_spectrum set_formatted_spectrum]. rewrite length_resize. lia.
  - intros Hrun. apply bind_Done_inv in Hrun as (X & w2 & Hfill & Hrun).
    injection Hrun as <- <-. apply lift_Done_inv in Hfill as [Hfill ->].
    split; [|done]. split; [|split; [done|apply Hframe]].
    cbn [formatted_spectrum set_formatted_spectrum].
    apply fill_range_length in Hfill. lia.
Qed.

Lemma one_scan_sized (silent : bool) (d0 d d' : Device) (w w' : World) :
  sized_like d0 d →
  one_scan silent d w = (Done d', w') → sized_like d0 d'.
Proof.
  intros (Hf & Hb & Hframe) Hrun. unfold one_scan in Hrun.
  apply bind_Done_inv in Hrun as (scan & w1 & _ & Hrun).
  apply bind_Done_inv in Hrun as (u & w2 & _ & Hrun).
  destruct (seabreeze_get_formatted_spectrum (index d) scan (pixels d))
    as [e vals].
  apply bind_Done_inv in Hrun as (ok & w3 & _ & Hrun).
  apply bind_Done_inv in Hrun as ([ok' repaired] & w4 & Hrepair & Hrun).
  apply bind_Done_inv in Hrun as (acc & w5 & Hacc & Hrun).
  injection Hrun as <- _.
  apply lift_Done_inv in Hacc as [Hacc _].
  apply accumulate_length in Hacc.
  apply repair_false_pixels_length in Hrepair.
  unfold sized_like.
  cbn [buffer formatted_spectrum set_buffer set_error
       set_formatted_spectrum] in *.
  rewrite write_prefix_length in Hrepair.
  split; [lia|]. split; [lia|].
  rewrite <- Hframe. by destruct d.
Qed.

Lemma repeat_one_scan_sized (silent : bool) (k : nat) (d0 d d' : Device)
    (w w' : World) :
  sized_like d0 d →
  repeat_M k (one_scan silent) d w = (Done d', w') → sized_like d0 d'.
Proof.
  revert d w. induction k as [|k IH]; intros d w Hd Hrun.
  - by injection Hrun as <- _.
  - cbn [repeat_M] in Hrun.
    apply bind_Done_inv in Hrun as (d1 & w1 & Hscan & Hrun).
    eapply IH; [|done]. by eapply one_scan_sized.
Qed.

(** X28.  Whenever [read_spectrum] returns, it returns [true], and the
    scratch buffer and the spectrum have [pixels] elements each; the
    index, the pixel count, the wavelengths, the two baselines and the
    transmission are as before. *)
Theorem read_spectrum_shape (d d' : Device) (scans_to_average boxcar_width : Z)
    (silent ok : bool) (w w' : World) :
  0 <= pixels d →
  read_spectrum d scans_to_average boxcar_width silent w = (Done (ok, d'), w') →
  ok = true ∧ sized_like d d'.
Proof.
  intros Hpixels Hrun. unfold read_spectrum in Hrun.
  apply bind_Done_inv in Hrun as (d3 & w3 & Havg & Hrun).
  apply bind_Done_inv in Hrun as ([applied X] & w4 & Hsmooth & Hrun).
  injection Hrun as <- <- _.
  apply lift_Done_inv in Hsmooth as [Hsmooth _].
  unfold averaged_scans in Havg.
  apply bind_Done_inv in Havg as (d1 & w1 & Hsize & Havg).
  apply bind_Done_inv in Havg as (d2 & w2 & Hscans & Havg).
  apply bind_Done_inv in Havg as (Y & w5 & Hscale & Havg).
  injection Havg as <- _.
  apply lift_Done_inv in Hscale as [Hscale _].
  apply scale_length in Hscale.
  apply size_buffers_sized in Hsize as [Hd1 _]; [|done].
  destruct (repeat_one_scan_sized _ _ _ _ _ _ _ Hd1 Hscans)
    as (Hf & Hb & Hframe).
  assert (HX : length X = length Y).
  { cbn [formatted_spectrum set_formatted_spectrum] in Hsmooth.
    unfold average_vector in Hsmooth.
    destruct (empty Y || (boxcar_width <=? 0)).
    - by injection Hsmooth as _ <-.
    - by eapply smoothed_length. }
  split; [done|]. unfold sized_like.
  cbn [formatted_spectrum buffer set_formatted_spectrum].
  split; [lia|]. split; [done|]. rewrite <- Hframe. by destruct d2.
Qed.

End ShapeProperties.

(** ** Acquisition at the edges *)

Lemma scale_loop (k : nat) (factor : float) (pre rest : list float) :
  length rest = k →
  for_loop k (Z.of_nat (length pre))
    (λ pixel acc, a ← vget acc pixel; vset acc pixel (a * factor)%float)
    (pre ++ rest)
  = Some (pre ++ ((λ a, (a * factor)%float) <$> rest)).
Proof.
  revert pre rest. induction k as [|k IH]; intros pre [|x rest] Hlen;
    try done.
  cbn [for_loop fmap list_fmap].
  rewrite vget_lookup, lookup_app_r by lia. rewrite Nat.sub_diag. simpl.
  rewrite vset_in_range by (rewrite length_app; simpl; lia).
  rewrite insert_app_r_alt by lia. rewrite Nat.sub_diag. simpl.
  replace (Z.of_nat (length pre) + 1)
    with (Z.of_nat (length (pre ++ [(x * factor)%float])))
    by (rewrite length_app; simpl; lia).
  rewrite (cons_middle (x * factor)%float pre rest), app_assoc.
  rewrite IH by (simpl in Hlen; lia). by rewrite <- app_assoc.
Qed.

Section EdgeProperties.
Context `{SeaBreeze}.

(** X29.  Asked for zero scans, [read_spectrum] asks the driver for
    nothing and divides the zeroed spectrum by zero scans: every pixel
    ends as NaN. *)
Theorem read_spectrum_zero_scans (d : Device) (silent : bool) (w : World) :
  0 <= pixels d →
  empty_or_sized (pixels d) (formatted_spectrum d) →
  ∃ d',
    read_spectrum d 0 0 silent w = (Done (true, d'), w)
    ∧ formatted_spectrum d' = replicate (Z.to_nat (pixels d)) nan.
Proof.
  intros Hpixels Hsized. unfold read_spectrum, averaged_scans.
  erewrite bind_Done.
  2: { erewrite bind_Done by (by apply size_buffers_zeroes).
       cbn [Z.to_nat repeat_M]. erewrite bind_Done by reflexivity.
       cbn [pixels formatted_spectrum set_formatted_spectrum set_buffer].
       erewrite bind_Done.
       2: { unfold lift, scale, for_range. rewrite Z.sub_0_r.
            rewrite (scale_loop _ _ [] (replicate (Z.to_nat (pixels d)) 0%float))
              by (by rewrite length_replicate).
            reflexivity. }
       reflexivity. }
  cbn [formatted_spectrum set_formatted_spectrum]. rewrite app_nil_l.
  rewrite fmap_replicate.
  replace (0 * (1 / of_unsigned 0))%float with nan by (vm_compute; reflexivity).
  unfold average_vector. rewrite orb_true_r.
  erewrite bind_Done by reflexivity.
  eexists. split; [reflexivity|]. done.
Qed.

Lemma size_buffers_returns (d : Device) (w : World) :
  0 <= pixels d →
  ∃ d1, size_buffers d w = (Done d1, w)
        ∧ index d1 = index d ∧ pixels d1 = pixels d.
Proof.
  intros Hpixels. unfold size_buffers.
  set (d0 := if bool_decide (Z.of_nat (length (buffer d)) ≠ pixels d)
             then set_buffer (resize (Z.to_nat (pixels d)) 0%float (buffer d)) d
             else d).
  assert (Hd0 : index d0 = index d ∧ pixels d0 = pixels d
                ∧ formatted_spectrum d0 = formatted_spectrum d)
    by (unfold d0; by case_bool_decide).
  destruct Hd0 as (Hi & Hp & Hf). rewrite Hp, Hf.
  case_bool_decide as Hlen.
  - eexists. split; [reflexivity|]. done.
  - destruct (fill_range_defined 0 (pixels d) 0%float (formatted_spectrum d))
      as (X & HX & _); [lia..|].
    eexists. erewrite bind_Done by (unfold lift; by rewrite HX).
    split; [reflexivity|]. done.
Qed.

(** X30.  An error of the first spectrum request ends [read_spectrum]
    with the error report and exit status 1, before any serial-number
    query and without a second request. *)
Theorem read_spectrum_driver_error (d : Device)
    (scans_to_average boxcar_width : Z) (silent : bool) (w : World) :
  0 <= pixels d →
  0 < scans_to_average →
  (seabreeze_get_formatted_spectrum (index d) (scans_read w) (pixels d)).1 ≠ 0 →
  ∃ e,
    e ≠ 0 ∧
    read_spectrum d scans_to_average boxcar_width silent w
    = (Exited 1,
       mkWorld (trace w ++ [GetFormattedSpectrum (index d);
                            ErrorReport e (seabreeze_get_error_string e)])
         (S (scans_read w))).
Proof.
  intros Hpixels Hscans Herr.
  destruct (size_buffers_returns d w Hpixels) as (d1 & Hsize & Hi & Hp).
  destruct (seabreeze_get_formatted_spectrum (index d) (scans_read w) (pixels d))
    as [e vals] eqn:Hq. simpl in Herr.
  exists e. split; [done|].
  unfold read_spectrum, averaged_scans.
  apply bind_Exited. erewrite bind_Done by exact Hsize.
  apply bind_Exited.
  destruct (Z.to_nat scans_to_average) as [|k] eqn:Hk; [lia|].
  cbn [repeat_M]. apply bind_Exited.
  unfold one_scan.
  erewrite (bind_Done next_scan) by reflexivity.
  erewrite (bind_Done (emit _)) by reflexivity.
  cbn [scans_read]. rewrite Hi, Hp, Hq. cbv beta iota zeta.
  erewrite bind_Exited by (by apply check_for_error_failure).
  cbn [trace scans_read]. by rewrite <- app_assoc.
Qed.

End EdgeProperties.

(** ** The set-up and the acquisition on the bench *)

Lemma read_spectrum_zero_scans_witness :
  ∃ d',
    @read_spectrum (constant_scan_driver "S1" [4; 8]%float)
      (mkDevice 0 2 0 [] [] [] [] [] []) 0 0 true fresh_world
    = (Done (true, d'), fresh_world)
    ∧ formatted_spectrum d' = [nan; nan].
Proof.
  apply (@read_spectrum_zero_scans (constant_scan_driver "S1" [4; 8]%float)
           (mkDevice 0 2 0 [] [] [] [] [] []) true fresh_world).
  - simpl. lia.
  - by left.
Defined.

Lemma read_spectrum_driver_error_witness :
  ∃ e,
    e ≠ 0 ∧
    @read_spectrum
      (bench_driver (λ _, (0, "FLAME-S"%string)) (λ _, (0, "S1"%string))
         (λ _ _ _, (7, [])) (λ _, 0))
      (mkDevice 0 2 0 [] [] [] [] [] []) 3 1 true fresh_world
    = (Exited 1,
       mkWorld [GetFormattedSpectrum 0; ErrorReport e "seabreeze error"] 1).
Proof.
  apply (@read_spectrum_driver_error
           (bench_driver (λ _, (0, "FLAME-S"%string)) (λ _, (0, "S1"%string))
              (λ _ _ _, (7, [])) (λ _, 0))
           (mkDevice 0 2 0 [] [] [] [] [] []) 3 1 true fresh_world).
  - simpl. lia.
  - lia.
  - simpl. lia.
Defined.

Lemma read_spectrum_shape_witness :
  true = true ∧
  sized_like (mkDevice 0 2 0 [] [] [] [] [] [])
    (mkDevice 0 2 0 [] [4; 8]%float [] [] [4; 8]%float []).
Proof.
  apply (@read_spectrum_shape (constant_scan_driver "S1" [4; 8]%float)
           (mkDevice 0 2 0 [] [] [] [] [] [])
           (mkDevice 0 2 0 [] [4; 8]%float [] [] [4; 8]%float [])
           1 0 true true fresh_world
           (mkWorld [GetFormattedSpectrum 0; GetSerialNumber 0] 1)).
  - simpl. lia.
  - vm_compute. reflexivity.
Defined.

Lemma repair_false_pixels_other_device_witness :
  @repair_false_pixels (constant_scan_driver "S1" []) (new_Device 0)
    [100; 5; 4]%float true fresh_world
  = (Done (true, [100; 5; 4]%float), mkWorld [GetSerialNumber 0] 0).
Proof.
  apply (@repair_false_pixels_other_device (constant_scan_driver "S1" [])
           (new_Device 0) [100; 5; 4]%float true fresh_world "S1").
  - reflexivity.
  - done.
Defined.

Lemma read_pixels_spec_witness :
  ∃ d' w',
    @read_pixels (constant_scan_driver "FLMN01736" []) (bench_setup 1 2048)
      (new_Device 0) true fresh_world = (Done (true, d'), w')
    ∧ pixels d' = 128
    ∧ set_pixels 0 d' = set_pixels 0 (new_Device 0)
    ∧ scans_read w' = scans_read fresh_world.
Proof.
  apply (@read_pixels_spec (constant_scan_driver "FLMN01736" [])
           (bench_setup 1 2048) (new_Device 0) true fresh_world 2048
           "FLMN01736").
  - done.
  - reflexivity.
  - reflexivity.
  - reflexivity.
Defined.

Lemma read_pixels_error_witness :
  ∃ e,
    e ≠ 0 ∧
    @read_pixels (constant_scan_driver "S1" []) (bench_setup 1 2048)
      (set_error 5 (new_Device 0)) true fresh_world
    = (Exited 1, mkWorld [ErrorReport e "seabreeze error"] 0).
Proof.
  apply (@read_pixels_error (constant_scan_driver "S1" [])
           (bench_setup 1 2048) (set_error 5 (new_Device 0)) true fresh_world).
  - done.
  - left. done.
Defined.

Lemma read_wavelengths_spec_witness :
  ∃ d',
    @read_wavelengths (constant_scan_driver "S1" []) (bench_setup 1 3)
      (set_pixels 3 (new_Device 0)) fresh_world = (Done (true, d'), fresh_world)
    ∧ Z.of_nat (length (wavelengths d')) = 3
    ∧ (∀ i, (i < 3)%nat → Z.of_nat i < 3 →
            wavelengths d' !! i = [0; 1; 2]%float !! i)
    ∧ (∀ i, (3 <= i)%nat →
            wavelengths d' !! i = resize 3 0%float [] !! i)
    ∧ set_wavelengths [] d'
      = set_wavelengths [] (set_error 0 (set_pixels 3 (new_Device 0))).
Proof.
  apply (@read_wavelengths_spec (constant_scan_driver "S1" [])
           (bench_setup 1 3) (set_pixels 3 (new_Device 0)) fresh_world
           [0; 1; 2]%float).
  - simpl. lia.
  - vm_compute. reflexivity.
Defined.

Lemma pre_wavelengths_short_device_witness :
  @pre_wavelengths (constant_scan_driver "S1" []) (bench_setup 1 1)
    (bench_meter "1e-3" [set_pixels 1 (new_Device 0)]) fresh_world
  = (Undefined, fresh_world).
Proof.
  apply (@pre_wavelengths_short_device (constant_scan_driver "S1" [])
           (bench_setup 1 1)
           (bench_meter "1e-3" [set_pixels 1 (new_Device 0)]) fresh_world
           (set_pixels 1 (new_Device 0)) []).
  - reflexivity.
  - simpl. lia.
  - reflexivity.
Defined.

Lemma pre_wavelengths_spec_witness :
  ∃ m',
    @pre_wavelengths (constant_scan_driver "S1" []) (bench_setup 1 2)
      (bench_meter "1e-3" [set_pixels 2 (new_Device 0)]) fresh_world
    = (Done m', fresh_world)
    ∧ Forall2
        (λ d d', Z.of_nat (length (wavelengths d')) = pixels d
                 ∧ set_wavelengths [] d' = set_wavelengths [] (set_error 0 d))
        [set_pixels 2 (new_Device 0)] (devices m')
    ∧ set_devices [] m'
      = set_devices [] (bench_meter "1e-3" [set_pixels 2 (new_Device 0)]).
Proof.
  apply (@pre_wavelengths_spec (constant_scan_driver "S1" [])
           (bench_setup 1 2)
           (bench_meter "1e-3" [set_pixels 2 (new_Device 0)]) fresh_world).
  intros d Hd. apply list_elem_of_singleton in Hd as ->.
  split; [simpl; lia|reflexivity].
Defined.

Lemma pre_configure_after_times_witness :
  match @pre_configure (constant_scan_driver "S1" []) (bench_setup 3 2)
          (set_integration_times_micro_seconds [500000; 250000; 250000]
             (bench_meter "0.5:0.25" [new_Device 0; new_Device 1; new_Device 2]))
          fresh_world with
  | (Done m'', w') =>
      w' = fresh_world
      ∧ set_meter_error 0 m''
        = set_meter_error 0
            (set_integration_times_micro_seconds [500000; 250000; 250000]
               (bench_meter "0.5:0.25"
                  [new_Device 0; new_Device 1; new_Device 2]))
      ∧ ∀ k device,
          [new_Device 0; new_Device 1; new_Device 2] !! k = Some device →
          ∃ t_us,
            [500000; 250000; 250000] !! k = Some t_us
            ∧ @seabreeze_set_integration_time_microsec (bench_setup 3 2)
                (index device) t_us = 0
            ∧ @seabreeze_set_trigger_mode (bench_setup 3 2) (index device) 0 = 0
  | (Exited status, _) => status = 1
  | _ => False
  end.
Proof.
  apply (@pre_configure_after_times (constant_scan_driver "S1" [])
           (bench_setup 3 2) atof_decimal
           (bench_meter "0.5:0.25" [new_Device 0; new_Device 1; new_Device 2])
           (set_integration_times_micro_seconds [500000; 250000; 250000]
              (bench_meter "0.5:0.25"
                 [new_Device 0; new_Device 1; new_Device 2]))
           fresh_world).
  - vm_compute. reflexivity.
  - simpl. lia.
Defined.
